(** * A copy-on-write B-tree (ztaoing/btree, after google/btree)

    Shallow embedding of [btree.go].  Go heap objects (nodes, free lists,
    copy-on-write contexts, tree handles) live in an explicit store and are
    addressed by indices, so that two handles produced by [Clone] really
    share nodes.  A run-time panic is an outcome of the monad and keeps the
    store as it was when the panic was raised. *)

From stdpp Require Import prelude.
From Stdlib Require Import ZArith Lia.

Set Default Proof Using "Type*".

(** ** The [Item] interface *)

(** [type Item interface { Less(than Item) bool }] *)
Class Item (A : Type) := Less : A → A → bool.

(** The contract the container assumes of [Less]: a strict weak order. *)
Class ItemOrder (A : Type) `{Item A} := {
  Less_irrefl (x : A) : Less x x = false;
  Less_trans (x y z : A) : Less x y = true → Less y z = true → Less x z = true;
  Less_cotrans (x y z : A) :
    Less x y = true → Less x z = true ∨ Less z y = true
}.

(** [type Int int] with [a.Less(b) = a < b.(Int)]. *)
Definition Int := Z.
#[global] Instance Int_Item : Item Int := Z.ltb.

#[global] Instance Int_ItemOrder : ItemOrder Int.
Proof.
  split; unfold Less, Int_Item; intros.
  - apply Z.ltb_irrefl.
  - apply Z.ltb_lt. apply Z.ltb_lt in H, H0. lia.
  - apply Z.ltb_lt in H. rewrite !Z.ltb_lt. lia.
Qed.

(** Go's [int] on a 64-bit platform: results of arithmetic wrap around. *)
Definition int_wrap (z : Z) : Z := ((z + 2 ^ 63) mod 2 ^ 64 - 2 ^ 63)%Z.

Definition DefaultFreelistSize : Z := 32.

(** ** Slices

    [items] and [children] have the same four positional methods in the
    source; a slice is its list of elements.  [None] is Go's
    index-out-of-range panic.  The clearing of the dropped tail of the
    backing array in [truncate], [pop] and [removeAt] is not visible in the
    elements of the slice. *)

Section slices.
Context {T : Type}.

(** [func (i *items) insertAt(index int, item Item)] *)
Definition insertAt (index : nat) (x : T) (s : list T) : option (list T) :=
  if decide (index ≤ length s)
  then Some (take index s ++ x :: drop index s)
  else None.

(** [func (i *items) removeAt(index int) Item] *)
Definition removeAt (index : nat) (s : list T) : option (T * list T) :=
  match s !! index with
  | Some x => Some (x, take index s ++ drop (S index) s)
  | None => None
  end.

(** [func (i *items) pop() (out Item)] *)
Definition pop (s : list T) : option (T * list T) :=
  match length s with
  | 0 => None
  | S index =>
      match s !! index with
      | Some x => Some (x, take index s)
      | None => None
      end
  end.

(** [func (i *items) truncate(index int)] *)
Definition truncate (index : nat) (s : list T) : option (list T) :=
  if decide (index ≤ length s) then Some (take index s) else None.
End slices.

(** ** [sort.Search] and [items.find] *)

(** Go's [sort.Search(n, f)]: the loop [for i < j] with [h := (i+j) >> 1].
    The interval shrinks at every turn, so [n] turns are enough. *)
Fixpoint Search_loop (fuel i j : nat) (f : nat → bool) : nat :=
  match fuel with
  | 0 => i
  | S fuel' =>
      if decide (i < j) then
        let h := Nat.div2 (i + j) in
        if negb (f h) then Search_loop fuel' (h + 1) j f
        else Search_loop fuel' i h f
      else i
  end.

Definition Search (n : nat) (f : nat → bool) : nat := Search_loop n 0 n f.

Section find.
Context {A : Type} `{Item A}.

(** The closure handed to [sort.Search]: [item.Less(i[n])].  It is only
    called at indices inside the slice. *)
Definition find_pred (item : A) (i : list A) (n : nat) : bool :=
  match i !! n with
  | Some y => Less item y
  | None => true
  end.

(** [func (i items) find(item Item) (index int, found bool)] *)
Definition find (item : A) (i : list A) : nat * bool :=
  let n := Search (length i) (find_pred item i) in
  match n with
  | S m =>
      match i !! m with
      | Some y => if negb (Less y item) then (m, true) else (n, false)
      | None => (n, false)
      end
  | 0 => (n, false)
  end.
End find.

(** ** The store *)

Definition loc := nat.     (* *node *)
Definition flid := nat.    (* *FreeList *)
Definition cowid := nat.   (* *copyOnWriteContext *)
Definition treeid := nat.  (* *BTree *)

(** [type FreeList struct { mu sync.Mutex; freelist []*node }]; the
    capacity of the slice is fixed by [NewFreeList]. *)
Record FreeList := mkFreeList {
  fl_freelist : list loc;
  fl_cap : nat
}.

(** [type copyOnWriteContext struct { freelist *FreeList }] *)
Record copyOnWriteContext := mkCow {
  cow_freelist : option flid
}.

(** [type BTree struct { degree int; length int; root *node;
    cow *copyOnWriteContext }] *)
Record BTree := mkBTree {
  t_degree : Z;
  t_length : Z;
  t_root : option loc;
  t_cow : cowid
}.

(** [type toRemove int] *)
Definition toRemove := Z.
Definition removeItem : toRemove := 0%Z.
Definition removeMin : toRemove := 1%Z.
Definition removeMax : toRemove := 2%Z.

(** [type direction int] *)
Definition direction := Z.
Definition descend : direction := (-1)%Z.
Definition ascend : direction := 1%Z.

(** [type freeType int] *)
Inductive freeType := ftFreelistFull | ftStored | ftNotOwned.

#[global] Instance freeType_eq_dec : EqDecision freeType.
Proof. solve_decision. Defined.

(** Run-time panics of the program. *)
Inductive fault :=
  | BadDegree          (* panic("bad degree") *)
  | NilItem            (* panic("nil item being added to BTree") *)
  | InvalidType        (* panic("invalid type") *)
  | IndexOutOfRange    (* index or slice bounds out of range *)
  | NilDereference     (* nil pointer dereference *)
  | MakeSliceCap.      (* makeslice: cap out of range *)

Inductive outcome (R : Type) :=
  | Ok (r : R)
  | Panic (f : fault)
  | OutOfFuel.
Arguments Ok {R} r.
Arguments Panic {R} f.
Arguments OutOfFuel {R}.

Section store.
Context {A : Type}.

(** [type node struct { items items; children children;
    cow *copyOnWriteContext }] *)
Record node := mkNode {
  n_items : list A;
  n_children : list loc;
  n_cow : option cowid
}.

Record heap := mkHeap {
  nodes : list node;
  freelists : list FreeList;
  cows : list copyOnWriteContext;
  trees : list BTree
}.

Definition empty_heap : heap := mkHeap [] [] [] [].

(** Computations on the store that may panic. *)
Definition M (R : Type) : Type := heap → outcome R * heap.

Definition ret {R} (r : R) : M R := λ σ, (Ok r, σ).

Definition bind {R R'} (m : M R) (k : R → M R') : M R' :=
  λ σ, match m σ with
       | (Ok r, σ') => k r σ'
       | (Panic f, σ') => (Panic f, σ')
       | (OutOfFuel, σ') => (OutOfFuel, σ')
       end.

Definition panic {R} (f : fault) : M R := λ σ, (Panic f, σ).
Definition out_of_fuel {R} : M R := λ σ, (OutOfFuel, σ).

(** A slice operation that panics when out of range. *)
Definition bounds {R} (o : option R) : M R :=
  match o with
  | Some r => ret r
  | None => panic IndexOutOfRange
  end.

(** An [int] used as an index. *)
Definition index_of (z : Z) : option nat :=
  if decide (0 ≤ z)%Z then Some (Z.to_nat z) else None.
End store.

Arguments node : clear implicits.
Arguments heap : clear implicits.
Arguments M : clear implicits.

Notation "x <- m ;; k" := (bind m (λ x, k))
  (at level 100, m at next level, right associativity,
   format "'[v' x  <-  m  ;;  '/' k ']'").
Notation "m ;;; k" := (bind m (λ _, k))
  (at level 100, right associativity).

(** ** Reading and writing the store *)

Section access.
Context {A : Type}.
Local Abbreviation M := (M A).
Local Abbreviation node := (node A).
Local Abbreviation heap := (heap A).

Definition get_node (n : loc) : M node :=
  λ σ, match nodes σ !! n with
       | Some nd => (Ok nd, σ)
       | None => (Panic NilDereference, σ)
       end.

Definition put_node (n : loc) (nd : node) : M unit :=
  λ σ, (Ok (), mkHeap (<[n := nd]> (nodes σ)) (freelists σ) (cows σ) (trees σ)).

(** [new(node)] *)
Definition alloc_node : M loc :=
  λ σ, (Ok (length (nodes σ)),
        mkHeap (nodes σ ++ [mkNode [] [] None]) (freelists σ) (cows σ) (trees σ)).

Definition get_items (n : loc) : M (list A) :=
  nd <- get_node n ;; ret (n_items nd).
Definition get_children (n : loc) : M (list loc) :=
  nd <- get_node n ;; ret (n_children nd).
Definition get_cow (n : loc) : M (option cowid) :=
  nd <- get_node n ;; ret (n_cow nd).

Definition set_items (n : loc) (its : list A) : M unit :=
  nd <- get_node n ;; put_node n (mkNode its (n_children nd) (n_cow nd)).
Definition set_children (n : loc) (cs : list loc) : M unit :=
  nd <- get_node n ;; put_node n (mkNode (n_items nd) cs (n_cow nd)).
Definition set_cow (n : loc) (c : option cowid) : M unit :=
  nd <- get_node n ;; put_node n (mkNode (n_items nd) (n_children nd) c).

Definition get_freelist (f : flid) : M FreeList :=
  λ σ, match freelists σ !! f with
       | Some fl => (Ok fl, σ)
       | None => (Panic NilDereference, σ)
       end.

Definition put_freelist (f : flid) (fl : FreeList) : M unit :=
  λ σ, (Ok (), mkHeap (nodes σ) (<[f := fl]> (freelists σ)) (cows σ) (trees σ)).

Definition alloc_freelist (fl : FreeList) : M flid :=
  λ σ, (Ok (length (freelists σ)),
        mkHeap (nodes σ) (freelists σ ++ [fl]) (cows σ) (trees σ)).

Definition get_context (c : cowid) : M copyOnWriteContext :=
  λ σ, match cows σ !! c with
       | Some cw => (Ok cw, σ)
       | None => (Panic NilDereference, σ)
       end.

Definition alloc_context (cw : copyOnWriteContext) : M cowid :=
  λ σ, (Ok (length (cows σ)),
        mkHeap (nodes σ) (freelists σ) (cows σ ++ [cw]) (trees σ)).

Definition get_tree (t : treeid) : M BTree :=
  λ σ, match trees σ !! t with
       | Some tr => (Ok tr, σ)
       | None => (Panic NilDereference, σ)
       end.

Definition put_tree (t : treeid) (tr : BTree) : M unit :=
  λ σ, (Ok (), mkHeap (nodes σ) (freelists σ) (cows σ) (<[t := tr]> (trees σ))).

Definition alloc_tree (tr : BTree) : M treeid :=
  λ σ, (Ok (length (trees σ)),
        mkHeap (nodes σ) (freelists σ) (cows σ) (trees σ ++ [tr])).

Definition set_root (t : treeid) (r : option loc) : M unit :=
  tr <- get_tree t ;;
  put_tree t (mkBTree (t_degree tr) (t_length tr) r (t_cow tr)).
Definition set_length (t : treeid) (n : Z) : M unit :=
  tr <- get_tree t ;;
  put_tree t (mkBTree (t_degree tr) n (t_root tr) (t_cow tr)).
Definition set_tree_cow (t : treeid) (c : cowid) : M unit :=
  tr <- get_tree t ;;
  put_tree t (mkBTree (t_degree tr) (t_length tr) (t_root tr) c).
End access.

(** ** The free list and the copy-on-write context *)

Section pool.
Context {A : Type}.
Local Abbreviation M := (M A).

(** [func NewFreeList(size int) *FreeList] *)
Definition NewFreeList (size : Z) : M flid :=
  if decide (0 ≤ size)%Z
  then alloc_freelist (mkFreeList [] (Z.to_nat size))
  else panic MakeSliceCap.

(** [func (f *FreeList) newNode() (n *node)] *)
Definition FreeList_newNode (f : flid) : M loc :=
  fl <- get_freelist f ;;
  match length (fl_freelist fl) with
  | 0 => alloc_node
  | S index =>
      n <- bounds (fl_freelist fl !! index) ;;
      put_freelist f (mkFreeList (take index (fl_freelist fl)) (fl_cap fl)) ;;;
      ret n
  end.

(** [func (f *FreeList) freeNode(n *node) (out bool)] *)
Definition FreeList_freeNode (f : flid) (n : loc) : M bool :=
  fl <- get_freelist f ;;
  if decide (length (fl_freelist fl) < fl_cap fl)
  then put_freelist f (mkFreeList (fl_freelist fl ++ [n]) (fl_cap fl)) ;;;
       ret true
  else ret false.

(** The [freelist] field of a context, which may be nil. *)
Definition context_freelist (c : cowid) : M flid :=
  cw <- get_context c ;;
  match cow_freelist cw with
  | Some f => ret f
  | None => panic NilDereference
  end.

(** [func (c *copyOnWriteContext) newNode() (n *node)] *)
Definition cow_newNode (c : cowid) : M loc :=
  f <- context_freelist c ;;
  n <- FreeList_newNode f ;;
  set_cow n (Some c) ;;;
  ret n.

(** A method called through a context pointer that may be nil. *)
Definition deref_context (c : option cowid) : M cowid :=
  match c with
  | Some c => ret c
  | None => panic NilDereference
  end.

(** [func (c *copyOnWriteContext) freeNode(n *node) freeType] *)
Definition cow_freeNode (c : option cowid) (n : loc) : M freeType :=
  nc <- get_cow n ;;
  if decide (nc = c) then
    its <- get_items n ;;
    its' <- bounds (truncate 0 its) ;;
    set_items n its' ;;;
    cs <- get_children n ;;
    cs' <- bounds (truncate 0 cs) ;;
    set_children n cs' ;;;
    set_cow n None ;;;
    c <- deref_context c ;;
    f <- context_freelist c ;;
    b <- FreeList_freeNode f n ;;
    if b then ret ftStored else ret ftFreelistFull
  else ret ftNotOwned.
End pool.

(** ** Nodes *)

Section nodes.
Context {A : Type} `{Item A}.
Local Abbreviation M := (M A).

(** [func (n *node) mutableFor(cow *copyOnWriteContext) *node] *)
Definition mutableFor (n : loc) (cow : option cowid) : M loc :=
  nc <- get_cow n ;;
  if decide (nc = cow) then ret n
  else
    c <- deref_context cow ;;
    out <- cow_newNode c ;;
    its <- get_items n ;;
    set_items out its ;;;
    cs <- get_children n ;;
    set_children out cs ;;;
    ret out.

(** [func (n *node) mutableChild(i int) *node] *)
Definition mutableChild (n : loc) (i : nat) : M loc :=
  cs <- get_children n ;;
  c0 <- bounds (cs !! i) ;;
  cow <- get_cow n ;;
  c <- mutableFor c0 cow ;;
  cs <- get_children n ;;
  (if decide (i < length cs) then ret () else panic IndexOutOfRange) ;;;
  set_children n (<[i := c]> cs) ;;;
  ret c.

(** [func (n *node) split(i int) (Item, *node)] *)
Definition split (n : loc) (i : Z) : M (A * loc) :=
  its <- get_items n ;;
  i <- bounds (index_of i) ;;
  item <- bounds (its !! i) ;;
  cow <- get_cow n ;;
  c <- deref_context cow ;;
  next <- cow_newNode c ;;
  nits <- get_items next ;;
  its <- get_items n ;;
  (if decide (i + 1 ≤ length its) then ret () else panic IndexOutOfRange) ;;;
  set_items next (nits ++ drop (i + 1) its) ;;;
  its <- get_items n ;;
  its' <- bounds (truncate i its) ;;
  set_items n its' ;;;
  cs <- get_children n ;;
  (if decide (0 < length cs) then
     ncs <- get_children next ;;
     (if decide (i + 1 ≤ length cs) then ret () else panic IndexOutOfRange) ;;;
     set_children next (ncs ++ drop (i + 1) cs) ;;;
     cs <- get_children n ;;
     cs' <- bounds (truncate (i + 1) cs) ;;
     set_children n cs'
   else ret ()) ;;;
  ret (item, next).

(** [func (n *node) maybeSplitChild(i, maxItems int) bool] *)
Definition maybeSplitChild (n : loc) (i : nat) (maxItems : Z) : M bool :=
  cs <- get_children n ;;
  c <- bounds (cs !! i) ;;
  cits <- get_items c ;;
  if decide (Z.of_nat (length cits) < maxItems)%Z then ret false
  else
    first <- mutableChild n i ;;
    r <- split first (int_wrap (maxItems `quot` 2)) ;;
    its <- get_items n ;;
    its' <- bounds (insertAt i r.1 its) ;;
    set_items n its' ;;;
    cs <- get_children n ;;
    cs' <- bounds (insertAt (i + 1) r.2 cs) ;;
    set_children n cs' ;;;
    ret true.

(** [n.items[i] = item] *)
Definition store_item (n : loc) (i : nat) (item : A) : M unit :=
  its <- get_items n ;;
  if decide (i < length its) then set_items n (<[i := item]> its)
  else panic IndexOutOfRange.

(** [func (n *node) insert(item Item, maxItems int) Item] *)
Fixpoint insert (fuel : nat) (n : loc) (item : A) (maxItems : Z)
    : M (option A) :=
  match fuel with
  | 0 => out_of_fuel
  | S fuel' =>
      its <- get_items n ;;
      let '(i, found) := find item its in
      if found then
        out <- bounds (its !! i) ;;
        store_item n i item ;;;
        ret (Some out)
      else
        cs <- get_children n ;;
        (if decide (length cs = 0) then
           its <- get_items n ;;
           its' <- bounds (insertAt i item its) ;;
           set_items n its'
         else ret ()) ;;;
        b <- maybeSplitChild n i maxItems ;;
        r <- (if b then
                its <- get_items n ;;
                inTree <- bounds (its !! i) ;;
                if Less item inTree then ret (inl i)
                else if Less inTree item then ret (inl (i + 1))
                else
                  its <- get_items n ;;
                  out <- bounds (its !! i) ;;
                  store_item n i item ;;;
                  ret (inr (Some out))
              else ret (inl i)) ;;
        match r with
        | inr out => ret out
        | inl i => c <- mutableChild n i ;; insert fuel' c item maxItems
        end
  end.

(** [func (n *node) get(key Item) Item] *)
Fixpoint get (fuel : nat) (n : loc) (key : A) : M (option A) :=
  match fuel with
  | 0 => out_of_fuel
  | S fuel' =>
      its <- get_items n ;;
      let '(i, found) := find key its in
      if found then
        x <- bounds (its !! i) ;; ret (Some x)
      else
        cs <- get_children n ;;
        if decide (0 < length cs) then
          c <- bounds (cs !! i) ;; get fuel' c key
        else ret None
  end.

(** The loop [for len(n.children) > 0 { n = n.children[0] }] of [min]. *)
Fixpoint min_loop (fuel : nat) (n : loc) : M loc :=
  match fuel with
  | 0 => out_of_fuel
  | S fuel' =>
      cs <- get_children n ;;
      if decide (0 < length cs) then
        c <- bounds (cs !! 0) ;; min_loop fuel' c
      else ret n
  end.

(** [func min(n *node) Item] *)
Definition min (fuel : nat) (n : option loc) : M (option A) :=
  match n with
  | None => ret None
  | Some n =>
      n <- min_loop fuel n ;;
      its <- get_items n ;;
      if decide (length its = 0) then ret None
      else x <- bounds (its !! 0) ;; ret (Some x)
  end.

(** The loop of [max]. *)
Fixpoint max_loop (fuel : nat) (n : loc) : M loc :=
  match fuel with
  | 0 => out_of_fuel
  | S fuel' =>
      cs <- get_children n ;;
      if decide (0 < length cs) then
        c <- bounds (cs !! (length cs - 1)) ;; max_loop fuel' c
      else ret n
  end.

(** [func max(n *node) Item] *)
Definition max (fuel : nat) (n : option loc) : M (option A) :=
  match n with
  | None => ret None
  | Some n =>
      n <- max_loop fuel n ;;
      its <- get_items n ;;
      if decide (length its = 0) then ret None
      else x <- bounds (its !! (length its - 1)) ;; ret (Some x)
  end.
End nodes.

(** ** Removal *)

Section removal.
Context {A : Type} `{Item A}.
Local Abbreviation M := (M A).

(** [n.items.find(item)] where [item] may be the nil interface value:
    [sort.Search] does not call [item.Less] on an empty slice. *)
Definition find_item (item : option A) (its : list A) : M (nat * bool) :=
  match item with
  | Some x => ret (find x its)
  | None => if decide (length its = 0) then ret (0, false)
            else panic NilDereference
  end.

(** [n.items[i] = v] where [v] is the result of a call.  The slices of the
    model hold no nil; [remove] with [removeMax] returns no nil (lemma
    [remove_max_not_nil]). *)
Definition store_result (n : loc) (i : nat) (v : option A) : M unit :=
  match v with
  | Some x => store_item n i x
  | None => panic NilItem
  end.

(** [func (n *node) growChildAndRemove(i int, item Item, minItems int,
    typ toRemove) Item], with the final call [n.remove(item, minItems, typ)]
    as [rem]. *)
Definition growChildAndRemove_body
    (rem : loc → option A → Z → toRemove → M (option A))
    (n : loc) (i : nat) (item : option A) (minItems : Z) (typ : toRemove)
    : M (option A) :=
  left_rich <-
    (if decide (0 < i) then
       cs <- get_children n ;;
       c <- bounds (cs !! (i - 1)) ;;
       its <- get_items c ;;
       ret (bool_decide (minItems < Z.of_nat (length its))%Z)
     else ret false) ;;
  (if left_rich : bool then
     (* steal from the left child *)
     child <- mutableChild n i ;;
     stealFrom <- mutableChild n (i - 1) ;;
     sits <- get_items stealFrom ;;
     p <- bounds (pop sits) ;;
     set_items stealFrom p.2 ;;;
     let stolenItem := p.1 in
     nits <- get_items n ;;
     x <- bounds (nits !! (i - 1)) ;;
     cits <- get_items child ;;
     cits' <- bounds (insertAt 0 x cits) ;;
     set_items child cits' ;;;
     store_item n (i - 1) stolenItem ;;;
     scs <- get_children stealFrom ;;
     if decide (0 < length scs) then
       q <- bounds (pop scs) ;;
       set_children stealFrom q.2 ;;;
       ccs <- get_children child ;;
       ccs' <- bounds (insertAt 0 q.1 ccs) ;;
       set_children child ccs'
     else ret ()
   else
     nits <- get_items n ;;
     right_rich <-
       (if decide (i < length nits) then
          cs <- get_children n ;;
          c <- bounds (cs !! (i + 1)) ;;
          its <- get_items c ;;
          ret (bool_decide (minItems < Z.of_nat (length its))%Z)
        else ret false) ;;
     if right_rich : bool then
       (* steal from the right child *)
       child <- mutableChild n i ;;
       stealFrom <- mutableChild n (i + 1) ;;
       sits <- get_items stealFrom ;;
       p <- bounds (removeAt 0 sits) ;;
       set_items stealFrom p.2 ;;;
       let stolenItem := p.1 in
       nits <- get_items n ;;
       x <- bounds (nits !! i) ;;
       cits <- get_items child ;;
       set_items child (cits ++ [x]) ;;;
       store_item n i stolenItem ;;;
       scs <- get_children stealFrom ;;
       if decide (0 < length scs) then
         q <- bounds (removeAt 0 scs) ;;
         set_children stealFrom q.2 ;;;
         ccs <- get_children child ;;
         set_children child (ccs ++ [q.1])
       else ret ()
     else
       nits <- get_items n ;;
       i <- (if decide (length nits ≤ i) then
               (* [i--]; a negative index faults in [mutableChild] *)
               match i with 0 => panic IndexOutOfRange | S i' => ret i' end
             else ret i) ;;
       child <- mutableChild n i ;;
       (* merge with the right child *)
       nits <- get_items n ;;
       p <- bounds (removeAt i nits) ;;
       set_items n p.2 ;;;
       let mergeItem := p.1 in
       cs <- get_children n ;;
       q <- bounds (removeAt (i + 1) cs) ;;
       set_children n q.2 ;;;
       let mergeChild := q.1 in
       cits <- get_items child ;;
       set_items child (cits ++ [mergeItem]) ;;;
       cits <- get_items child ;;
       mits <- get_items mergeChild ;;
       set_items child (cits ++ mits) ;;;
       ccs <- get_children child ;;
       mcs <- get_children mergeChild ;;
       set_children child (ccs ++ mcs) ;;;
       cow <- get_cow n ;;
       cow_freeNode cow mergeChild ;;;
       ret ()) ;;;
  rem n item minItems typ.

(** [func (n *node) remove(item Item, minItems int, typ toRemove) Item].
    The first component of the [inl] result of the [switch] is the child
    index [i], the second is [found]; [inr] is an early [return]. *)
Fixpoint remove (fuel : nat) (n : loc) (item : option A) (minItems : Z)
    (typ : toRemove) : M (option A) :=
  match fuel with
  | 0 => out_of_fuel
  | S fuel' =>
      sw <-
        (match typ with
         | 2%Z (* removeMax *) =>
             cs <- get_children n ;;
             if decide (length cs = 0) then
               its <- get_items n ;;
               p <- bounds (pop its) ;;
               set_items n p.2 ;;;
               ret (inr (Some p.1))
             else
               its <- get_items n ;;
               ret (inl (length its, false))
         | 1%Z (* removeMin *) =>
             cs <- get_children n ;;
             if decide (length cs = 0) then
               its <- get_items n ;;
               p <- bounds (removeAt 0 its) ;;
               set_items n p.2 ;;;
               ret (inr (Some p.1))
             else ret (inl (0, false))
         | 0%Z (* removeItem *) =>
             its <- get_items n ;;
             r <- find_item item its ;;
             cs <- get_children n ;;
             if decide (length cs = 0) then
               if r.2 : bool then
                 its <- get_items n ;;
                 p <- bounds (removeAt r.1 its) ;;
                 set_items n p.2 ;;;
                 ret (inr (Some p.1))
               else ret (inr None)
             else ret (inl r)
         | _ => panic InvalidType
         end) ;;
      match sw with
      | inr out => ret out
      | inl (i, found) =>
          cs <- get_children n ;;
          c <- bounds (cs !! i) ;;
          cits <- get_items c ;;
          if decide (Z.of_nat (length cits) ≤ minItems)%Z then
            growChildAndRemove_body (remove fuel') n i item minItems typ
          else
            child <- mutableChild n i ;;
            if found : bool then
              its <- get_items n ;;
              out <- bounds (its !! i) ;;
              pred <- remove fuel' child None minItems removeMax ;;
              store_result n i pred ;;;
              ret (Some out)
            else remove fuel' child item minItems typ
      end
  end.

Definition growChildAndRemove (fuel : nat) :=
  growChildAndRemove_body (remove fuel).

(** [func (n *node) reset(c *copyOnWriteContext) bool] *)
Fixpoint reset (fuel : nat) (n : loc) (c : option cowid) : M bool :=
  match fuel with
  | 0 => out_of_fuel
  | S fuel' =>
      cs <- get_children n ;;
      continue <-
        (fix range (cs : list loc) : M bool :=
           match cs with
           | [] => ret true
           | child :: cs' =>
               b <- reset fuel' child c ;;
               if negb b then ret false else range cs'
           end) cs ;;
      if negb continue then ret false
      else
        ft <- cow_freeNode c n ;;
        ret (bool_decide (ft ≠ ftFreelistFull))
  end.
End removal.

(** ** Iteration *)

Section iteration.
Context {A : Type} `{Item A}.
(** The state captured by the iterator closure. *)
Context {St : Type}.
Local Abbreviation M := (M A).

(** [type ItemIterator func(i Item) bool] *)
Definition ItemIterator : Type := A → St → bool * St.

(** The result [(hit, ok)] of [iterate] and the iterator's state. *)
Definition iter_result : Type := bool * bool * St.

(** [start != nil && !start.Less(x)] and the like. *)
Definition bound_not_less (b : option A) (x : A) : bool :=
  match b with Some y => negb (Less y x) | None => false end.
Definition not_less_bound (x : A) (b : option A) : bool :=
  match b with Some y => negb (Less x y) | None => false end.
Definition bound_less (b : option A) (x : A) : bool :=
  match b with Some y => Less y x | None => false end.

(** The [for i := index; i < len(n.items); i++] loop of the ascending
    case, over the remaining indices; [rec] is the recursive call on a
    child.  The second component of the result is false when the loop
    body executed a [return hit, false]. *)
Fixpoint ascend_loop (rec : loc → bool → St → M iter_result)
    (its : list A) (cs : list loc) (start stop : option A)
    (includeStart : bool) (iter : ItemIterator)
    (idx : list nat) (hit : bool) (s : St) : M iter_result :=
  match idx with
  | [] => ret (hit, true, s)
  | i :: idx' =>
      r <- (if decide (0 < length cs) then
              c <- bounds (cs !! i) ;; rec c hit s
            else ret (hit, true, s)) ;;
      let '(hit, ok, s) := r in
      if negb ok then ret (hit, false, s)
      else
        x <- bounds (its !! i) ;;
        if negb includeStart && negb hit && bound_not_less start x then
          ascend_loop rec its cs start stop includeStart iter idx' true s
        else
          let hit := true in
          if not_less_bound x stop then ret (hit, false, s)
          else
            let '(continue, s) := iter x s in
            if negb continue then ret (hit, false, s)
            else ascend_loop rec its cs start stop includeStart iter idx' hit s
  end.

(** The [for i := index; i >= 0; i--] loop of the descending case; [idx]
    lists the remaining indices from [index] down to 0. *)
Fixpoint descend_loop (rec : loc → bool → St → M iter_result)
    (its : list A) (cs : list loc) (start stop : option A)
    (includeStart : bool) (iter : ItemIterator)
    (idx : list nat) (hit : bool) (s : St) : M iter_result :=
  match idx with
  | [] => ret (hit, true, s)
  | i :: idx' =>
      x <- bounds (its !! i) ;;
      if not_less_bound x start
         && (negb includeStart || hit || bound_less start x) then
        descend_loop rec its cs start stop includeStart iter idx' hit s
      else
        r <- (if decide (0 < length cs) then
                c <- bounds (cs !! (i + 1)) ;; rec c hit s
              else ret (hit, true, s)) ;;
        let '(hit, ok, s) := r in
        if negb ok then ret (hit, false, s)
        else
          if bound_not_less stop x then ret (hit, false, s)
          else
            let hit := true in
            let '(continue, s) := iter x s in
            if negb continue then ret (hit, false, s)
            else descend_loop rec its cs start stop includeStart iter idx' hit s
  end.

(** [func (n *node) iterate(dir direction, start, stop Item,
    includeStart bool, hit bool, iter ItemIterator) (bool, bool)] *)
Fixpoint iterate (fuel : nat) (n : loc) (dir : direction)
    (start stop : option A) (includeStart hit : bool) (iter : ItemIterator)
    (s : St) : M iter_result :=
  match fuel with
  | 0 => out_of_fuel
  | S fuel' =>
      let rec := λ c hit s,
        iterate fuel' c dir start stop includeStart hit iter s in
      nd <- get_node n ;;
      let its := n_items nd in
      let cs := n_children nd in
      match dir with
      | 1%Z (* ascend *) =>
          let index := match start with
                       | Some st => (find st its).1
                       | None => 0
                       end in
          r <- ascend_loop rec its cs start stop includeStart iter
                 (seq index (length its - index)) hit s ;;
          let '(hit, ok, s) := r in
          if negb ok then ret (hit, false, s)
          else if decide (0 < length cs) then
            c <- bounds (cs !! (length cs - 1)) ;;
            r <- rec c hit s ;;
            let '(hit, ok, s) := r in
            if negb ok then ret (hit, false, s) else ret (hit, true, s)
          else ret (hit, true, s)
      | (-1)%Z (* descend *) =>
          (* the number of indices [index, index-1, ..., 0] *)
          let count := match start with
                       | Some st =>
                           let '(index, found) := find st its in
                           if found then index + 1 else index
                       | None => length its
                       end in
          r <- descend_loop rec its cs start stop includeStart iter
                 (reverse (seq 0 count)) hit s ;;
          let '(hit, ok, s) := r in
          if negb ok then ret (hit, false, s)
          else if decide (0 < length cs) then
            c <- bounds (cs !! 0) ;;
            r <- rec c hit s ;;
            let '(hit, ok, s) := r in
            if negb ok then ret (hit, false, s) else ret (hit, true, s)
          else ret (hit, true, s)
      | _ => ret (hit, true, s)
      end
  end.
End iteration.

(** ** The tree handle *)

Section tree.
Context {A : Type} `{Item A}.
Local Abbreviation M := (M A).

(** [func NewWithFreelist(degree int, f *FreeList) *BTree] *)
Definition NewWithFreelist (degree : Z) (f : option flid) : M treeid :=
  if decide (degree ≤ 1)%Z then panic BadDegree
  else
    c <- alloc_context (mkCow f) ;;
    alloc_tree (mkBTree degree 0 None c).

(** [func New(degree int) *BTree] *)
Definition New (degree : Z) : M treeid :=
  f <- NewFreeList DefaultFreelistSize ;;
  NewWithFreelist degree (Some f).

(** [func (t *BTree) Clone() (t2 *BTree)] *)
Definition Clone (t : treeid) : M treeid :=
  tr <- get_tree t ;;
  cw <- get_context (t_cow tr) ;;
  cow1 <- alloc_context cw ;;
  cow2 <- alloc_context cw ;;
  let out := tr in
  set_tree_cow t cow1 ;;;
  alloc_tree (mkBTree (t_degree out) (t_length out) (t_root out) cow2).

(** [func (t *BTree) maxItems() int] *)
Definition maxItems (tr : BTree) : Z :=
  int_wrap (int_wrap (t_degree tr * 2) - 1).

(** [func (t *BTree) minItems() int] *)
Definition minItems (tr : BTree) : Z :=
  int_wrap (t_degree tr - 1).

(** [t.length++] and [t.length--] *)
Definition add_length (t : treeid) (d : Z) : M unit :=
  tr <- get_tree t ;;
  set_length t (int_wrap (t_length tr + d)).

(** [func (t *BTree) ReplaceOrInsert(item Item) Item] *)
Definition ReplaceOrInsert (fuel : nat) (t : treeid) (item : option A)
    : M (option A) :=
  match item with
  | None => panic NilItem
  | Some item =>
      tr <- get_tree t ;;
      match t_root tr with
      | None =>
          r <- cow_newNode (t_cow tr) ;;
          set_root t (Some r) ;;;
          its <- get_items r ;;
          set_items r (its ++ [item]) ;;;
          add_length t 1 ;;;
          ret None
      | Some r0 =>
          r <- mutableFor r0 (Some (t_cow tr)) ;;
          set_root t (Some r) ;;;
          its <- get_items r ;;
          (* [root] is [t.root] after the conditional *)
          root <-
            (if decide (maxItems tr ≤ Z.of_nat (length its))%Z then
               p <- split r (int_wrap (maxItems tr `quot` 2)) ;;
               let oldRoot := r in
               r <- cow_newNode (t_cow tr) ;;
               set_root t (Some r) ;;;
               its <- get_items r ;;
               set_items r (its ++ [p.1]) ;;;
               cs <- get_children r ;;
               set_children r (cs ++ [oldRoot; p.2]) ;;;
               ret r
             else ret r) ;;
          out <- insert fuel root item (maxItems tr) ;;
          (if decide (out = None :> option A) then add_length t 1
           else ret ()) ;;;
          ret out
      end
  end.

(** [func (t *BTree) deleteItem(item Item, typ toRemove) Item] *)
Definition deleteItem (fuel : nat) (t : treeid) (item : option A)
    (typ : toRemove) : M (option A) :=
  tr <- get_tree t ;;
  match t_root tr with
  | None => ret None
  | Some r0 =>
      its <- get_items r0 ;;
      if decide (length its = 0) then ret None
      else
        r <- mutableFor r0 (Some (t_cow tr)) ;;
        set_root t (Some r) ;;;
        out <- remove fuel r item (minItems tr) typ ;;
        (* [t.root] is still [r] *)
        its <- get_items r ;;
        cs <- get_children r ;;
        (if decide (length its = 0 ∧ 0 < length cs) then
           let oldRoot := r in
           c <- bounds (cs !! 0) ;;
           set_root t (Some c) ;;;
           cow_freeNode (Some (t_cow tr)) oldRoot ;;;
           ret ()
         else ret ()) ;;;
        (if out is Some _ then add_length t (-1) else ret ()) ;;;
        ret out
  end.

(** [func (t *BTree) Delete(item Item) Item] *)
Definition Delete (fuel : nat) (t : treeid) (item : option A) : M (option A) :=
  deleteItem fuel t item removeItem.

(** [func (t *BTree) DeleteMin() Item] *)
Definition DeleteMin (fuel : nat) (t : treeid) : M (option A) :=
  deleteItem fuel t None removeMin.

(** [func (t *BTree) DeleteMax() Item] *)
Definition DeleteMax (fuel : nat) (t : treeid) : M (option A) :=
  deleteItem fuel t None removeMax.

(** [func (t *BTree) Get(key Item) Item] *)
Definition Get (fuel : nat) (t : treeid) (key : A) : M (option A) :=
  tr <- get_tree t ;;
  match t_root tr with
  | None => ret None
  | Some r => get fuel r key
  end.

(** [func (t *BTree) Min() Item] *)
Definition Min (fuel : nat) (t : treeid) : M (option A) :=
  tr <- get_tree t ;; min fuel (t_root tr).

(** [func (t *BTree) Max() Item] *)
Definition Max (fuel : nat) (t : treeid) : M (option A) :=
  tr <- get_tree t ;; max fuel (t_root tr).

(** [func (t *BTree) Has(key Item) bool] *)
Definition Has (fuel : nat) (t : treeid) (key : A) : M bool :=
  r <- Get fuel t key ;; ret (bool_decide (is_Some r)).

(** [func (t *BTree) Len() int] *)
Definition Len (t : treeid) : M Z :=
  tr <- get_tree t ;; ret (t_length tr).

(** [func (t *BTree) Clear(addNodesToFreelist bool)] *)
Definition Clear (fuel : nat) (t : treeid) (addNodesToFreelist : bool)
    : M unit :=
  tr <- get_tree t ;;
  (match t_root tr with
   | Some r =>
       if addNodesToFreelist then reset fuel r (Some (t_cow tr)) ;;; ret ()
       else ret ()
   | None => ret ()
   end) ;;;
  tr <- get_tree t ;;
  put_tree t (mkBTree (t_degree tr) 0 None (t_cow tr)).

Context {St : Type}.

(** The traversal entry points: each returns the iterator's final state. *)
Definition traverse (fuel : nat) (t : treeid) (dir : direction)
    (start stop : option A) (includeStart : bool)
    (iterator : ItemIterator (St:=St)) (s : St) : M St :=
  tr <- get_tree t ;;
  match t_root tr with
  | None => ret s
  | Some r =>
      res <- iterate fuel r dir start stop includeStart false iterator s ;;
      ret res.2
  end.

(** [func (t *BTree) AscendRange(greaterOrEqual, lessThan Item,
    iterator ItemIterator)] *)
Definition AscendRange fuel t (greaterOrEqual lessThan : option A) iterator s :=
  traverse fuel t ascend greaterOrEqual lessThan true iterator s.

(** [func (t *BTree) AscendLessThan(pivot Item, iterator ItemIterator)] *)
Definition AscendLessThan fuel t (pivot : option A) iterator s :=
  traverse fuel t ascend None pivot false iterator s.

(** [func (t *BTree) AscendGreaterOrEqual(pivot Item, iterator ItemIterator)] *)
Definition AscendGreaterOrEqual fuel t (pivot : option A) iterator s :=
  traverse fuel t ascend pivot None true iterator s.

(** [func (t *BTree) Ascend(iterator ItemIterator)] *)
Definition Ascend fuel t iterator s :=
  traverse fuel t ascend None None false iterator s.

(** [func (t *BTree) DescendRange(lessOrEqual, greaterThan Item,
    iterator ItemIterator)] *)
Definition DescendRange fuel t (lessOrEqual greaterThan : option A) iterator s :=
  traverse fuel t descend lessOrEqual greaterThan true iterator s.

(** [func (t *BTree) DescendLessOrEqual(pivot Item, iterator ItemIterator)] *)
Definition DescendLessOrEqual fuel t (pivot : option A) iterator s :=
  traverse fuel t descend pivot None true iterator s.

(** [func (t *BTree) DescendGreaterThan(pivot Item, iterator ItemIterator)] *)
Definition DescendGreaterThan fuel t (pivot : option A) iterator s :=
  traverse fuel t descend None pivot false iterator s.

(** [func (t *BTree) Descend(iterator ItemIterator)] *)
Definition Descend fuel t iterator s :=
  traverse fuel t descend None None false iterator s.
End tree.

(** * The vocabulary of the properties *)

(** ** Sorted slices *)

Section sorted_slices.
Context {A : Type} `{ItemOrder A}.

(** A slice is sorted and duplicate-free when it is strictly increasing. *)
Fixpoint ascending (l : list A) : Prop :=
  match l with
  | [] => True
  | x :: l' => Forall (λ y, Less x y = true) l' ∧ ascending l'
  end.

#[global] Instance ascending_dec l : Decision (ascending l).
Proof. induction l; simpl; apply _. Defined.

(** The first index [n] with [item < l[n]], or the length of [l]: the
    linear scan that the binary search of [find] is meant to compute. *)
Fixpoint first_above (item : A) (l : list A) : nat :=
  match l with
  | [] => 0
  | y :: l' => if Less item y then 0 else S (first_above item l')
  end.

(** [l[n-1]] exists and is not less than [item]. *)
Definition equal_before (item : A) (l : list A) (n : nat) : bool :=
  match n with
  | 0 => false
  | S m => match l !! m with
           | Some y => negb (Less y item)
           | None => false
           end
  end.
End sorted_slices.

(** ** Releases into a pool *)

Section pool_runs.
Context {A : Type}.
Local Abbreviation M := (M A).
Implicit Types (σ : heap A) (f : flid) (n : loc) (fl : FreeList).

(** A sequence of [freeNode] calls on one free list. *)
Fixpoint release_all (f : flid) (ns : list loc) : M (list bool) :=
  match ns with
  | [] => ret []
  | n :: ns' =>
      b <- FreeList_freeNode f n ;;
      bs <- release_all f ns' ;;
      ret (b :: bs)
  end.

(** The i-th of a run of releases into a pool that holds [size] nodes is
    accepted when the pool, grown by the [i] earlier ones, is below [cap]. *)
Definition accepted (size cap : nat) (i : nat) : bool :=
  bool_decide (size + i < cap).
End pool_runs.

(** ** Copy-on-write: what a writer may touch

    Fix the context [c] through which a handle [t] writes, and the free
    list [f0] that [c] points to.  A node is foreign when it carries the
    tag of another context: it may be shared with another handle.  Every
    operation leaves the foreign nodes exactly as they were, creates no
    foreign node, and puts no foreign node into the pool. *)

Section frame.
Context {A : Type} `{Item A}.
Variable c : cowid.
Variable t : treeid.
Variable f0 : flid.
Local Abbreviation M := (M A).
Implicit Types (σ : heap A) (l n : loc) (nd : node A) (L : list loc).

Definition foreign nd : Prop := ∃ c', n_cow nd = Some c' ∧ c' ≠ c.

(** Not foreign: untagged, tagged [c], or not allocated. *)
Definition nf σ l : Prop := ∀ nd, nodes σ !! l = Some nd → ¬ foreign nd.

Definition same_foreign σ σ' : Prop :=
  ∀ l nd, foreign nd → nodes σ !! l = Some nd ↔ nodes σ' !! l = Some nd.

(** The pool of [c] is [f0] and holds no foreign node; the handle [t]
    writes through [c]. *)
Record pool_ok σ : Prop := mkPoolOk {
  pool_of_context : ∀ cw f,
    cows σ !! c = Some cw → cow_freelist cw = Some f → f = f0;
  pool_not_foreign : ∀ fl l,
    freelists σ !! f0 = Some fl → l ∈ fl_freelist fl → nf σ l;
  handle_context : ∀ tr, trees σ !! t = Some tr → t_cow tr = c
}.

Definition other_pools σ σ' : Prop :=
  ∀ f, f ≠ f0 → freelists σ' !! f = freelists σ !! f.

Definition other_trees σ σ' : Prop :=
  ∀ t', t' ≠ t → trees σ' !! t' = trees σ !! t'.

Record ext σ σ' : Prop := mkExt {
  ext_nodes : same_foreign σ σ';
  ext_pool : pool_ok σ';
  ext_cows : cows σ' = cows σ;
  ext_trees : other_trees σ σ';
  ext_pools : other_pools σ σ'
}.

(** [m] run from a store whose pool is in order and in which the nodes
    [L] are not foreign: the final store extends the initial one, also
    when [m] panics, and a result [v] satisfies [Φ v] and comes with the
    nodes [Q v], not foreign either. *)
Definition safe L {R} (m : M R) (Φ : R → Prop) (Q : R → list loc) : Prop :=
  ∀ σ, pool_ok σ → Forall (nf σ) L →
    ext σ (m σ).2 ∧
    ∀ v, (m σ).1 = Ok v →
      Φ v ∧ Forall (nf (m σ).2) (Q v) ∧ Forall (nf (m σ).2) L.
End frame.

Section ownership.
Variable c : cowid.

(** The tag of a node that is not foreign to [c]: nil or [c] itself. *)
Definition owned_tag (v : option cowid) : Prop := v = None ∨ v = Some c.
End ownership.

(** ** Operations and the stores they leave *)

(** The operations of a handle that write. *)
Inductive op (A : Type) : Type :=
  | OpReplaceOrInsert (item : A)
  | OpDelete (item : A)
  | OpDeleteMin
  | OpDeleteMax.
Arguments OpReplaceOrInsert {A} item.
Arguments OpDelete {A} item.
Arguments OpDeleteMin {A}.
Arguments OpDeleteMax {A}.

Definition run_op {A} `{Item A} (fuel : nat) (t : treeid) (o : op A)
    : M A (option A) :=
  match o with
  | OpReplaceOrInsert item => ReplaceOrInsert fuel t (Some item)
  | OpDelete item => Delete fuel t (Some item)
  | OpDeleteMin => DeleteMin fuel t
  | OpDeleteMax => DeleteMax fuel t
  end.

Section stores.
Context {A : Type}.
Local Abbreviation M := (M A).
Implicit Types (σ : heap A) (n : loc) (nd : node A).

(** The store after [n.items = its], and the like. *)
Definition with_node σ n nd : heap A :=
  mkHeap (<[n := nd]> (nodes σ)) (freelists σ) (cows σ) (trees σ).
End stores.

(** ** Reading a tree that another handle writes to *)

Section sharing.
Context {A : Type} `{Item A}.
Implicit Types (σ : heap A) (l n : loc) (nd : node A).

(** Every node of the tree of height at most [h] at [l] carries the tag
    of a context below [bound]. *)
Fixpoint tagged_tree (bound : nat) (ns : list (node A)) (h : nat) (l : loc)
    : bool :=
  match h with
  | 0 => false
  | S h' =>
      match ns !! l with
      | Some nd =>
          match n_cow nd with
          | Some c' =>
              bool_decide (c' < bound)
              && forallb (tagged_tree bound ns h') (n_children nd)
          | None => false
          end
      | None => false
      end
  end.

(** The nodes in the free list [f] are untagged. *)
Definition pool_clean σ (f : flid) : bool :=
  match freelists σ !! f with
  | Some fl =>
      forallb (λ l, match nodes σ !! l with
                    | Some nd => bool_decide (n_cow nd = None)
                    | None => true
                    end) (fl_freelist fl)
  | None => true
  end.

(** The nodes tagged below [bound] are the same in both stores. *)
Definition keeps_tagged (bound : nat) (ns ns' : list (node A)) : Prop :=
  ∀ l nd c', ns !! l = Some nd → n_cow nd = Some c' → c' < bound →
    ns' !! l = Some nd.
End sharing.

Section cloning.
Context {A : Type} `{Item A}.
Implicit Types (σ : heap A) (l n : loc) (nd : node A) (t : treeid).

(** The store after [t.Clone()]: two new contexts, one new handle. *)
Definition cloned σ t (tr : BTree) (cw : copyOnWriteContext) : heap A :=
  mkHeap (nodes σ) (freelists σ) ((cows σ ++ [cw]) ++ [cw])
    (<[t := mkBTree (t_degree tr) (t_length tr) (t_root tr) (length (cows σ))]>
       (trees σ)
     ++ [mkBTree (t_degree tr) (t_length tr) (t_root tr)
           (length (cows σ ++ [cw]))]).
End cloning.

Section pools.
Context {A : Type} `{Item A}.
Implicit Types (σ : heap A) (t : treeid) (n : loc) (nd : node A).

(** A computable form of [pool_ok]. *)
Definition pool_okb (c : cowid) t (f0 : flid) σ : bool :=
  match cows σ !! c with
  | Some cw => match cow_freelist cw with
               | Some f => bool_decide (f = f0)
               | None => true
               end
  | None => true
  end
  && match freelists σ !! f0 with
     | Some fl =>
         forallb (λ l, match nodes σ !! l with
                       | Some nd => bool_decide (owned_tag c (n_cow nd))
                       | None => true
                       end) (fl_freelist fl)
     | None => true
     end
  && match trees σ !! t with
     | Some tr => bool_decide (t_cow tr = c)
     | None => true
     end.

(** The nodes in the pool [f0]. *)
Definition in_pool σ (f0 : flid) (l : loc) : Prop :=
  ∃ fl, freelists σ !! f0 = Some fl ∧ l ∈ fl_freelist fl.
End pools.

(** ** Sample programs and stores *)

(** [t := New(2); t.ReplaceOrInsert(Int(1)); t.ReplaceOrInsert(Int(2))] *)
Definition insert_two (fuel : nat) : M Int (option Int) :=
  t <- New 2 ;;
  ReplaceOrInsert fuel t (Some 1%Z) ;;;
  ReplaceOrInsert fuel t (Some 2%Z).

(** A tree of degree 2 with root [2] over the leaves [1] and [3]. *)
Definition three_items : heap Int :=
  mkHeap
    [mkNode [1%Z] [] (Some 0); mkNode [3%Z] [] (Some 0);
     mkNode [2%Z] [0; 1] (Some 0)]
    [mkFreeList [] 32] [mkCow (Some 0)] [mkBTree 2 3 (Some 2) 0].

(** ** The tree a node stands for *)

(** A node with the trees of its children. *)
Inductive tree (A : Type) : Type :=
  | Tree (its : list A) (ts : list (tree A)).
Arguments Tree {A} its ts.

Section abstraction.
Context {A : Type} `{Item A}.
Implicit Types (T : tree A) (ns : list (node A)) (l : loc).

Definition tree_items T : list A := match T with Tree its _ => its end.
Definition tree_children T : list (tree A) := match T with Tree _ ts => ts end.

(** The tree below [l], when it is at most [fuel] nodes deep. *)
Fixpoint tree_of (fuel : nat) ns l : option (tree A) :=
  match fuel with
  | 0 => None
  | S fuel' =>
      match ns !! l with
      | Some nd =>
          match mapM (tree_of fuel' ns) (n_children nd) with
          | Some ts => Some (Tree (n_items nd) ts)
          | None => None
          end
      | None => None
      end
  end.

(** The subtrees [es] with the separators [ks] in between. *)
Fixpoint weave (es : list (list A)) (ks : list A) : list A :=
  match es with
  | [] => ks
  | e :: es' =>
      match ks with
      | [] => e ++ concat es'
      | k :: ks' => e ++ k :: weave es' ks'
      end
  end.

(** The elements of a tree from left to right. *)
Fixpoint elements T : list A :=
  match T with
  | Tree its ts => weave (map elements ts) its
  end.

(** A node is a leaf or has one more child than it has items. *)
Fixpoint shaped T : Prop :=
  match T with
  | Tree its ts =>
      (ts = [] ∨ length ts = S (length its))
      ∧ (fix all (ts : list (tree A)) : Prop :=
           match ts with
           | [] => True
           | T' :: ts' => shaped T' ∧ all ts'
           end) ts
  end.

(** Every node below the root holds between [lo] and [hi] items. *)
Fixpoint bounded (lo hi : Z) T : Prop :=
  match T with
  | Tree its ts =>
      (lo ≤ Z.of_nat (length its) ≤ hi)%Z
      ∧ (fix all (ts : list (tree A)) : Prop :=
           match ts with
           | [] => True
           | T' :: ts' => bounded lo hi T' ∧ all ts'
           end) ts
  end.

Definition bounded_below_root (lo hi : Z) T : Prop :=
  Forall (bounded lo hi) (tree_children T).

(** The lower bound of a traversal: nothing is dropped without one. *)
Fixpoint drop_below (a : A) (l : list A) : list A :=
  match l with
  | [] => []
  | x :: l' => if Less x a then drop_below a l' else l
  end.

Definition from_bound (start : option A) (l : list A) : list A :=
  match start with
  | Some a => drop_below a l
  | None => l
  end.

(** [a ≤ x < b]; a nil bound does not bound. *)
Definition in_range (a b : option A) (x : A) : bool :=
  negb (match a with Some a => Less x a | None => false end)
  && match b with Some b => Less x b | None => true end.

Context {St : Type}.

(** The calls of the iterator on the elements of [l] in turn, up to the
    first call that returns false. *)
Fixpoint visit (iter : ItemIterator (A:=A) (St:=St)) (l : list A) (s : St)
    : St :=
  match l with
  | [] => s
  | x :: l' =>
      let '(continue, s') := iter x s in
      if continue then visit iter l' s' else s'
  end.

(** The same, also stopping before the first element that is not less
    than [stop]; the flag tells whether the end of [l] was reached. *)
Fixpoint scan (stop : option A) (iter : ItemIterator (A:=A) (St:=St))
    (l : list A) (s : St) : bool * St :=
  match l with
  | [] => (true, s)
  | x :: l' =>
      if not_less_bound x stop then (false, s)
      else
        let '(continue, s') := iter x s in
        if continue then scan stop iter l' s' else (false, s')
  end.
End abstraction.

(** ** The traversal of a node *)

Section segments.
Context {A : Type} `{ItemOrder A}.
Implicit Types (l : list A) (a x y : A).

(** The part of a node that the loop of [iterate] covers at index [i]:
    the child, if any, then the item. *)
Definition segment (es : list (list A)) (its : list A) (i : nat) : list A :=
  match its !! i with
  | Some k => default [] (es !! i) ++ [k]
  | None => []
  end.
End segments.

Section recursion.
Context {A : Type} `{ItemOrder A} {St : Type}.
Implicit Types (σ : heap A) (l c : loc) (T : tree A).
Implicit Types (iter : ItemIterator (A:=A) (St:=St)) (s : St).

(** The call on the child [c] scans the elements [E], whatever the flag
    and the iterator state it starts from, and leaves the store alone. *)
Definition rec_ok (rec : loc → bool → St → M A (iter_result (St:=St)))
    σ (stop : option A) iter (c : loc) (E : list A) : Prop :=
  ∀ hit s, ∃ hit',
    rec c hit s σ =
      (Ok (hit', (scan stop iter E s).1, (scan stop iter E s).2), σ).
End recursion.

(** The iterator that lists the elements it is called on. *)
Definition collect {A : Type} : ItemIterator (A:=A) (St:=list A) :=
  λ x s, (true, s ++ [x]).

(** ** Runs from the empty tree *)

Section handles.
Context {A : Type} `{Item A}.
Implicit Types (σ : heap A) (t : treeid) (n : loc) (nd : node A).

(** The store after an assignment to a field of the handle. *)
Definition with_tree σ t (tr : BTree) : heap A :=
  mkHeap (nodes σ) (freelists σ) (cows σ) (<[t := tr]> (trees σ)).

(** [n.items.find(item)] without the store. *)
Definition find_item_pure (item : option A) (its : list A)
    : outcome (nat * bool) :=
  match item with
  | Some x => Ok (find x its)
  | None => if decide (length its = 0) then Ok (0, false)
            else Panic NilDereference
  end.
End handles.

Section runs.
Context {A : Type} `{Item A}.
Implicit Types (σ : heap A) (t : treeid) (n : loc) (nd : node A).

(** The operations [ops] applied in turn to the handle [t]; a panic ends
    the run. *)
Fixpoint run_ops (fuel : nat) t (ops : list (op A)) : M A unit :=
  match ops with
  | [] => ret ()
  | o :: ops' => run_op fuel t o ;;; run_ops fuel t ops'
  end.

(** [t := New(degree)] followed by [ops]. *)
Definition build (degree : Z) (fuel : nat) (ops : list (op A)) : M A treeid :=
  t <- New degree ;;
  run_ops fuel t ops ;;;
  ret t.

(** What the handle looks like while a run from [New] has not panicked:
    no root and an empty pool, or a root that is a leaf of its own
    context with at most one item. *)
Definition small σ t (d : Z) : Prop :=
  ∃ tr, trees σ !! t = Some tr ∧ t_degree tr = d ∧
    match t_root tr with
    | None =>
        ∃ f fl, cows σ !! t_cow tr = Some (mkCow (Some f))
                ∧ freelists σ !! f = Some fl ∧ fl_freelist fl = []
    | Some r =>
        ∃ nd, nodes σ !! r = Some nd ∧ n_children nd = []
              ∧ length (n_items nd) ≤ 1 ∧ n_cow nd = Some (t_cow tr)
    end.

(** What it looks like in the store in which an operation panicked: the
    root is a leaf with its items in order. *)
Definition tidy σ t (d : Z) : Prop :=
  ∃ tr, trees σ !! t = Some tr ∧ t_degree tr = d ∧
    match t_root tr with
    | None => True
    | Some r =>
        ∃ nd, nodes σ !! r = Some nd ∧ n_children nd = []
              ∧ ascending (n_items nd)
    end.

(** The store after a run with the outcome [out]; the fuel of the model
    runs out only when there is none. *)
Definition after {R} (fuel : nat) (out : outcome R) σ t (d : Z) : Prop :=
  match out with
  | Ok _ => small σ t d
  | Panic _ => tidy σ t d
  | OutOfFuel => tidy σ t d ∧ fuel = 0
  end.
End runs.

(** ** The path of a search *)

Section search_paths.
Context {A : Type} `{Item A}.
Implicit Types (σ : heap A) (t : treeid) (n : loc) (nd : node A).

(** [x] and [y] are not equal: one of them is less than the other. *)
Definition differs (x y : A) : bool := Less x y || Less y x.

(** The search for [x] from [n] reaches a leaf within [fuel] nodes, and
    on its way every node belongs to the context [cow] and holds no
    element equal to [x], and every node below [n] holds more than [lo]
    items. *)
Fixpoint quiet (fuel : nat) (ns : list (node A)) (cow : option cowid)
    (lo : Z) (x : A) (n : loc) : bool :=
  match fuel with
  | 0 => false
  | S fuel' =>
      match ns !! n with
      | None => false
      | Some nd =>
          bool_decide (n_cow nd = cow)
          && forallb (differs x) (n_items nd)
          && match n_children nd with
             | [] => true
             | _ =>
                 match n_children nd !! (find x (n_items nd)).1 with
                 | None => false
                 | Some c =>
                     match ns !! c with
                     | None => false
                     | Some cd =>
                         bool_decide (lo < Z.of_nat (length (n_items cd)))%Z
                         && quiet fuel' ns cow lo x c
                     end
                 end
             end
      end
  end.
End search_paths.

(** A tree of degree 2 with root [3] over the leaves [1; 2] and [4]. *)
Definition four_items : heap Int :=
  mkHeap
    [mkNode [1%Z; 2%Z] [] (Some 0); mkNode [4%Z] [] (Some 0);
     mkNode [3%Z] [0; 1] (Some 0)]
    [mkFreeList [] 32] [mkCow (Some 0)] [mkBTree 2 4 (Some 2) 0].

(** ** Vocabulary of the further properties *)

Section more_stores.
Context {A : Type}.
Implicit Types (σ : heap A).

(** The store after an assignment to the free list [f]. *)
Definition with_pool σ (f : flid) (fl : FreeList) : heap A :=
  mkHeap (nodes σ) (<[f := fl]> (freelists σ)) (cows σ) (trees σ).

(** The nodes in the free list [f] are allocated, and none of them is [n]. *)
Definition pool_apart σ (f : flid) (n : loc) : Prop :=
  ∀ fl, freelists σ !! f = Some fl →
    Forall (λ l, l ≠ n ∧ l < length (nodes σ)) (fl_freelist fl).

(** The nodes in the free list [f] hold no items and no children, as
    [freeNode] leaves them. *)
Definition pool_blank σ (f : flid) : Prop :=
  ∀ fl l nd, freelists σ !! f = Some fl → l ∈ fl_freelist fl →
    nodes σ !! l = Some nd → n_items nd = [] ∧ n_children nd = [].
End more_stores.

(** * Properties *)

(** ** [find] on examples *)

Example find_Int_found : find (3%Z : Int) [1; 3; 5]%Z = (1, true).
Proof. reflexivity. Qed.

Example find_Int_absent : find (4%Z : Int) [1; 3; 5]%Z = (2, false).
Proof. reflexivity. Qed.

(** ** [find] on a sorted slice *)

Section find_spec.
Context {A : Type} `{ItemOrder A}.

Lemma first_above_le item l : first_above item l ≤ length l.
Proof. induction l as [|y l IH]; simpl; [lia|]. destruct (Less item y); lia. Qed.

Lemma first_above_before item l k y :
  k < first_above item l → l !! k = Some y → Less item y = false.
Proof.
  revert k. induction l as [|z l IH]; simpl; intros k Hk Hy; [lia|].
  destruct (Less item z) eqn:E; [lia|].
  destruct k as [|k]; simpl in Hy.
  - congruence.
  - apply (IH k); [lia|done].
Qed.

Lemma first_above_at item l :
  first_above item l < length l →
  ∃ y, l !! first_above item l = Some y ∧ Less item y = true.
Proof.
  induction l as [|z l IH]; simpl; intros Hlt; [lia|].
  destruct (Less item z) eqn:E.
  - exists z. done.
  - apply IH. lia.
Qed.

Lemma ascending_lookup l i j x y :
  ascending l → l !! i = Some x → l !! j = Some y → i < j → Less x y = true.
Proof.
  revert i j. induction l as [|z l IH]; intros i j Hs Hi Hj Hij; [done|].
  destruct Hs as [Hz Hs]. destruct j as [|j]; [lia|]. simpl in Hj.
  destruct i as [|i]; simpl in Hi.
  - injection Hi as ->. rewrite Forall_forall in Hz.
    apply Hz. by eapply list_elem_of_lookup_2.
  - apply (IH i j); auto with lia.
Qed.

Lemma find_pred_mono item l k k' :
  ascending l → k ≤ k' → k' < length l →
  find_pred item l k = true → find_pred item l k' = true.
Proof.
  intros Hs Hle Hlt. unfold find_pred.
  destruct (lookup_lt_is_Some_2 l k') as [y' Hy']; [done|].
  destruct (lookup_lt_is_Some_2 l k) as [y Hy]; [lia|].
  rewrite Hy, Hy'. intros Hless.
  destruct (decide (k = k')) as [->|Hne]; [congruence|].
  eapply Less_trans; [exact Hless|]. apply (ascending_lookup l k k'); auto with lia.
Qed.

Lemma div2_between i j : i < j → i ≤ Nat.div2 (i + j) < j.
Proof.
  intros Hij. rewrite Nat.div2_div.
  split.
  - apply Nat.div_le_lower_bound; lia.
  - apply Nat.Div0.div_lt_upper_bound; lia.
Qed.

(** The invariant of the binary search: everything left of [i] fails the
    predicate, everything from [j] on satisfies it. *)
Lemma Search_loop_spec (f : nat → bool) (n : nat) :
  (∀ k k', k ≤ k' → k' < n → f k = true → f k' = true) →
  ∀ fuel i j,
    i ≤ j → j ≤ n → j - i ≤ fuel →
    (∀ k, k < i → f k = false) →
    (∀ k, j ≤ k → k < n → f k = true) →
    let r := Search_loop fuel i j f in
    r ≤ n ∧ (∀ k, k < r → f k = false) ∧ (∀ k, r ≤ k → k < n → f k = true).
Proof.
  intros Hmono fuel.
  induction fuel as [|fuel IH]; intros i j Hij Hjn Hfuel Hlo Hhi; simpl.
  - assert (i = j) as -> by lia. auto.
  - destruct (decide (i < j)) as [Hlt|Hge].
    + pose proof (div2_between i j Hlt) as [Hh1 Hh2].
      destruct (f (Nat.div2 (i + j))) eqn:Efh; simpl.
      * apply IH; try lia; [done|].
        intros k Hk Hkn. eapply Hmono; [exact Hk|done|done].
      * apply IH; try lia; [|done].
        intros k Hk. destruct (f k) eqn:Efk; [|done].
        rewrite <- Efh. symmetry.
        apply (Hmono k); [lia|lia|done].
    + assert (i = j) as -> by lia. auto.
Qed.

(** On a sorted slice the binary search finds the first index above. *)
Lemma Search_first_above item l :
  ascending l → Search (length l) (find_pred item l) = first_above item l.
Proof.
  intros Hs. unfold Search.
  destruct (Search_loop_spec (find_pred item l) (length l)
              (λ k k' Hle Hlt, find_pred_mono item l k k' Hs Hle Hlt)
              (length l) 0 (length l)) as (Hr & Hlo & Hhi);
    [lia|lia|lia|intros; lia|intros; lia|].
  set (r := Search_loop (length l) 0 (length l) (find_pred item l)) in *.
  pose proof (first_above_le item l) as Hfa.
  destruct (Nat.lt_trichotomy r (first_above item l)) as [Hlt|[Heq|Hgt]];
    [|done|].
  - assert (find_pred item l r = true) as Hp by (apply Hhi; lia).
    unfold find_pred in Hp.
    destruct (lookup_lt_is_Some_2 l r) as [y Hy]; [lia|].
    rewrite Hy in Hp.
    rewrite (first_above_before item l r y Hlt Hy) in Hp. done.
  - destruct (first_above_at item l) as (y & Hy & Hless); [lia|].
    specialize (Hlo _ Hgt). unfold find_pred in Hlo.
    rewrite Hy in Hlo. congruence.
Qed.

(** [find] in terms of the first index above. *)
Lemma find_first_above item l :
  ascending l →
  find item l =
    let n := first_above item l in
    if equal_before item l n then (n - 1, true) else (n, false).
Proof.
  intros Hs. unfold find. rewrite (Search_first_above item l Hs). simpl.
  destruct (first_above item l) as [|m] eqn:E; simpl; [done|].
  destruct (l !! m) as [y|]; [|done].
  destruct (Less y item); simpl; [done|].
  by rewrite Nat.sub_0_r.
Qed.
End find_spec.

(** ** The node pool *)

Section pool_spec.
Context {A : Type}.
Local Abbreviation M := (M A).
Implicit Types (σ : heap A) (f : flid) (n : loc) (fl : FreeList).

Lemma FreeList_freeNode_step σ f fl n :
  freelists σ !! f = Some fl →
  FreeList_freeNode f n σ =
    if decide (length (fl_freelist fl) < fl_cap fl)
    then (Ok true,
          mkHeap (nodes σ)
            (<[f := mkFreeList (fl_freelist fl ++ [n]) (fl_cap fl)]> (freelists σ))
            (cows σ) (trees σ))
    else (Ok false, σ).
Proof.
  intros Hf. unfold FreeList_freeNode, bind, get_freelist. rewrite Hf.
  destruct (decide (length (fl_freelist fl) < fl_cap fl)); done.
Qed.

Lemma accepted_cons size cap k :
  map (accepted size cap) (seq 0 (S k)) =
    accepted size cap 0 :: map (accepted (size + 1) cap) (seq 0 k).
Proof.
  simpl. f_equal. rewrite <- seq_shift, map_map. apply map_ext.
  intros i. unfold accepted. apply bool_decide_ext. lia.
Qed.

Lemma accepted_full size cap k :
  cap ≤ size → map (accepted size cap) (seq 0 k) = replicate k false.
Proof.
  intros Hle. revert size Hle. induction k as [|k IH]; intros size Hle; [done|].
  rewrite accepted_cons, IH by lia. simpl. f_equal.
  unfold accepted. rewrite bool_decide_eq_false_2; [done|lia].
Qed.

Lemma release_all_spec f ns : ∀ σ fl,
  freelists σ !! f = Some fl →
  length (fl_freelist fl) ≤ fl_cap fl →
  ∃ σ' fl',
    release_all f ns σ =
      (Ok (map (accepted (length (fl_freelist fl)) (fl_cap fl))
             (seq 0 (length ns))), σ')
    ∧ freelists σ' !! f = Some fl'
    ∧ fl_cap fl' = fl_cap fl
    ∧ fl_freelist fl' =
        fl_freelist fl ++ take (fl_cap fl - length (fl_freelist fl)) ns
    ∧ nodes σ' = nodes σ.
Proof.
  induction ns as [|n ns IH]; intros σ fl Hf Hle.
  - exists σ, fl. rewrite take_nil, app_nil_r. done.
  - cbn [release_all length]. rewrite accepted_cons.
    unfold bind at 1. rewrite (FreeList_freeNode_step σ f fl n Hf).
    destruct (decide (length (fl_freelist fl) < fl_cap fl)) as [Hlt|Hge].
    + set (fl1 := mkFreeList (fl_freelist fl ++ [n]) (fl_cap fl)).
      set (σ1 := mkHeap _ _ _ _).
      destruct (IH σ1 fl1) as (σ' & fl' & Hrun & Hf' & Hcap & Hlist & Hnodes).
      { simpl. apply list_lookup_insert_eq. by eapply lookup_lt_Some. }
      { simpl. rewrite length_app. simpl. lia. }
      exists σ', fl'. unfold bind. rewrite Hrun. simpl in *.
      rewrite length_app in *. simpl in *.
      split_and!; [|done|done| |done].
      * unfold ret, accepted. rewrite Nat.add_0_r.
        by rewrite (bool_decide_eq_true_2 _ Hlt).
      * rewrite Hlist, <- app_assoc. f_equal. simpl.
        replace (fl_cap fl - length (fl_freelist fl))
          with (S (fl_cap fl - (length (fl_freelist fl) + 1))) by lia.
        done.
    + destruct (IH σ fl Hf Hle) as (σ' & fl' & Hrun & Hf' & Hcap & Hlist & Hnodes).
      assert (fl_cap fl - length (fl_freelist fl) = 0) as Hz by lia.
      exists σ', fl'. unfold bind. rewrite Hrun. rewrite Hz in *. simpl.
      split_and!; [|done|done|done|done].
      unfold ret. rewrite !accepted_full by lia.
      unfold accepted. rewrite bool_decide_eq_false_2; [done|lia].
Qed.

Lemma NewFreeList_spec σ (size : Z) :
  (0 ≤ size)%Z →
  NewFreeList size σ =
    (Ok (length (freelists σ)),
     mkHeap (nodes σ) (freelists σ ++ [mkFreeList [] (Z.to_nat size)])
       (cows σ) (trees σ)).
Proof. intros Hs. unfold NewFreeList. by rewrite decide_True. Qed.
End pool_spec.

(** ** Copy-on-write: the frame of a writer *)

Section frame_rules.
Context {A : Type} `{Item A}.
Variable c : cowid.
Variable t : treeid.
Variable f0 : flid.
Local Abbreviation M := (M A).
Local Abbreviation nf := (nf (A:=A) c).
Local Abbreviation foreign := (foreign (A:=A) c).
Local Abbreviation same_foreign := (same_foreign (A:=A) c).
Local Abbreviation pool_ok := (pool_ok (A:=A) c t f0).
Local Abbreviation ext := (ext (A:=A) c t f0).
Local Abbreviation safe := (safe (A:=A) c t f0).
Local Abbreviation owned_tag := (owned_tag c).
Implicit Types (σ : heap A) (l n : loc) (nd : node A) (L : list loc).

Lemma nf_same_foreign σ σ' l : same_foreign σ σ' → nf σ l → nf σ' l.
Proof.
  intros Hsf Hn nd Hl Hf. apply (Hn nd); [|done]. by apply (Hsf l nd Hf).
Qed.

Lemma nf_ext σ σ' l : ext σ σ' → nf σ l → nf σ' l.
Proof. intros [Hsf _ _ _ _]. by apply nf_same_foreign. Qed.

Lemma ext_refl σ : pool_ok σ → ext σ σ.
Proof. intros Hp. split; try done. Qed.

Lemma ext_trans σ1 σ2 σ3 : ext σ1 σ2 → ext σ2 σ3 → ext σ1 σ3.
Proof.
  intros [Hn1 Hp1 Hc1 Ht1 Hf1] [Hn2 Hp2 Hc2 Ht2 Hf2]. split.
  - intros l nd Hf. rewrite (Hn1 l nd Hf). apply Hn2, Hf.
  - done.
  - congruence.
  - intros t' Ht'. rewrite Ht2, Ht1; done.
  - intros f Hf. rewrite Hf2, Hf1; done.
Qed.

(** A step that changes nodes only. *)
Lemma ext_nodes_only σ ns :
  pool_ok σ → same_foreign σ (mkHeap ns (freelists σ) (cows σ) (trees σ)) →
  ext σ (mkHeap ns (freelists σ) (cows σ) (trees σ)).
Proof.
  intros [Hp1 Hp2 Hp3] Hsf. split; try done.
  split; [exact Hp1| |exact Hp3]. simpl. intros fl l Hfl Hl.
  eapply nf_same_foreign; [exact Hsf|]. by eapply Hp2.
Qed.

Lemma same_foreign_insert σ n nd :
  nf σ n → ¬ foreign nd →
  same_foreign σ (mkHeap (<[n := nd]> (nodes σ)) (freelists σ) (cows σ) (trees σ)).
Proof.
  intros Hn Hnd l nd0 Hf. simpl. rewrite list_lookup_insert_Some. split.
  - intros Hl. right. split; [|done]. intros ->. by apply (Hn nd0).
  - intros [(-> & -> & _)|[_ Hl]]; [exfalso; by apply Hnd|done].
Qed.

Lemma same_foreign_alloc σ :
  same_foreign σ
    (mkHeap (nodes σ ++ [mkNode [] [] None]) (freelists σ) (cows σ) (trees σ)).
Proof.
  intros l nd0 Hf. simpl. split.
  - apply lookup_app_l_Some.
  - rewrite lookup_app_Some. intros [Hl|[_ Hl]]; [done|].
    apply list_lookup_singleton_Some in Hl as [_ <-].
    destruct Hf as (c' & Hc' & _). done.
Qed.

(** *** Structural rules *)

Lemma safe_bind L {R R'} (m : M R) (k : R → M R') Φ1 Q1 Φ2 Q2 :
  safe L m Φ1 Q1 →
  (∀ v, Φ1 v → safe (Q1 v ++ L) (k v) Φ2 Q2) →
  safe L (bind m k) Φ2 Q2.
Proof.
  intros Hm Hk σ Hp HL. unfold bind.
  destruct (Hm σ Hp HL) as [He Hv].
  destruct (m σ) as [[v|f|] σ1]; simpl in *; [|by split|by split].
  destruct (Hv v eq_refl) as (HΦ & HQ & HL1).
  destruct (Hk v HΦ σ1) as [He2 Hv2].
  { apply He. } { by apply Forall_app_2. }
  split; [by eapply ext_trans|].
  intros v2 Hv2'. destruct (Hv2 v2 Hv2') as (? & ? & HL2).
  split_and!; [done|done|]. by apply Forall_app in HL2 as [_ ?].
Qed.

Lemma safe_weaken L L' {R} (m : M R) Φ Q Φ' Q' :
  safe L m Φ Q →
  L ⊆ L' →
  (∀ v, Φ v → Φ' v) →
  (∀ v, Φ v → Q' v ⊆ Q v ++ L) →
  safe L' m Φ' Q'.
Proof.
  intros Hm HL HΦ HQ σ Hp HL'.
  assert (Forall (nf σ) L) as HLσ.
  { rewrite Forall_forall in HL' |- *. auto. }
  destruct (Hm σ Hp HLσ) as [He Hv]. split; [done|].
  intros v Hr. destruct (Hv v Hr) as (Hphi & HQv & HLv).
  split_and!; [auto| |].
  - rewrite Forall_forall. intros l Hl.
    apply (HQ v Hphi), elem_of_app in Hl as [Hl|Hl].
    + rewrite Forall_forall in HQv. auto.
    + rewrite Forall_forall in HLv. auto.
  - rewrite Forall_forall in HL' |- *. intros l Hl. eapply nf_ext; eauto.
Qed.

Lemma safe_ret L {R} (v : R) (Φ : R → Prop) Q :
  Φ v → Q v ⊆ L → safe L (ret v) Φ Q.
Proof.
  intros HΦ HQ σ Hp HL. simpl. split; [by apply ext_refl|].
  intros v' [= <-]. split_and!; [done| |done].
  rewrite Forall_forall in HL |- *. auto.
Qed.

Lemma safe_panic L {R} (f : fault) (Φ : R → Prop) Q : safe L (panic f) Φ Q.
Proof. intros σ Hp HL. simpl. split; [by apply ext_refl|done]. Qed.

Lemma safe_out_of_fuel L {R} (Φ : R → Prop) Q : safe L out_of_fuel Φ Q.
Proof. intros σ Hp HL. simpl. split; [by apply ext_refl|done]. Qed.

Lemma safe_bounds L {R} (o : option R) :
  safe L (bounds o) (λ v, o = Some v) (λ _, []).
Proof.
  destruct o as [v|]; simpl; [|apply safe_panic].
  apply safe_ret; [done|]. apply list_subseteq_nil.
Qed.

(** *** Nodes *)

Lemma safe_get_node L n :
  safe L (get_node n) (λ nd, n ∈ L → ¬ foreign nd) (λ _, []).
Proof.
  intros σ Hp HL. unfold get_node.
  destruct (nodes σ !! n) as [nd|] eqn:E; simpl;
    (split; [by apply ext_refl|]); [|done].
  intros v [= <-]. split_and!; [|done|done].
  intros Hn. rewrite Forall_forall in HL. by apply (HL n Hn).
Qed.

Lemma safe_put_node L n nd :
  n ∈ L → ¬ foreign nd → safe L (put_node n nd) (λ _, True) (λ _, []).
Proof.
  intros Hn Hnd σ Hp HL. simpl.
  assert (nf σ n) as Hnf by (rewrite Forall_forall in HL; auto).
  pose proof (same_foreign_insert σ n nd Hnf Hnd) as Hsf.
  split; [by apply ext_nodes_only|].
  intros ? _. split_and!; [done|done|].
  rewrite Forall_forall in HL |- *. intros l Hl.
  eapply nf_same_foreign; eauto.
Qed.

Lemma safe_alloc_node L : safe L alloc_node (λ _, True) (λ n, [n]).
Proof.
  intros σ Hp HL. simpl.
  pose proof (same_foreign_alloc σ) as Hsf.
  split; [by apply ext_nodes_only|].
  intros v [= <-]. split_and!; [done| |].
  - constructor; [|done]. intros nd. simpl.
    rewrite lookup_app_r, Nat.sub_diag by done. simpl.
    intros [= <-] (c' & Hc' & _). done.
  - rewrite Forall_forall in HL |- *. intros l Hl.
    eapply nf_same_foreign; eauto.
Qed.
Lemma safe_get_items L n : safe L (get_items n) (λ _, True) (λ _, []).
Proof.
  eapply safe_bind; [apply safe_get_node|]. intros nd _.
  apply safe_ret; [done|set_solver].
Qed.

Lemma safe_get_children L n : safe L (get_children n) (λ _, True) (λ _, []).
Proof.
  eapply safe_bind; [apply safe_get_node|]. intros nd _.
  apply safe_ret; [done|set_solver].
Qed.

#[local] Instance owned_tag_dec v : Decision (owned_tag v).
Proof. unfold owned_tag. apply _. Defined.

Lemma not_foreign_owned nd : ¬ foreign nd ↔ owned_tag (n_cow nd).
Proof.
  unfold foreign, owned_tag. destruct (n_cow nd) as [c'|].
  - split.
    + intros Hn. right. f_equal. destruct (decide (c' = c)); [done|].
      exfalso. apply Hn. by exists c'.
    + intros [?|[= ->]] (c'' & [= <-] & ?); done.
  - split; [by left|]. intros _ (c' & ? & _). done.
Qed.

Lemma safe_get_cow L n :
  safe L (get_cow n) (λ v, n ∈ L → owned_tag v)
    (λ v, if decide (owned_tag v) then [n] else []).
Proof.
  intros σ Hp HL. unfold get_cow, bind, get_node.
  destruct (nodes σ !! n) as [nd|] eqn:E; simpl;
    (split; [by apply ext_refl|]); [|done].
  intros v [= <-]. split_and!; [| |done].
  - intros Hn. apply not_foreign_owned.
    rewrite Forall_forall in HL. by apply (HL n Hn).
  - destruct (decide (owned_tag (n_cow nd))) as [Ho|]; [|done].
    constructor; [|done]. intros nd' Hnd'.
    assert (nd' = nd) as -> by congruence. by apply not_foreign_owned.
Qed.

Lemma safe_get_cow_owned L n :
  n ∈ L → safe L (get_cow n) owned_tag (λ _, []).
Proof.
  intros Hn. eapply safe_weaken; [apply safe_get_cow|done|auto|set_solver].
Qed.

Lemma safe_set_items L n its :
  n ∈ L → safe L (set_items n its) (λ _, True) (λ _, []).
Proof.
  intros Hn. eapply safe_bind; [apply safe_get_node|]. intros nd Hnd.
  apply safe_put_node; [done|]. apply not_foreign_owned. simpl.
  apply not_foreign_owned. auto.
Qed.

Lemma safe_set_children L n cs :
  n ∈ L → safe L (set_children n cs) (λ _, True) (λ _, []).
Proof.
  intros Hn. eapply safe_bind; [apply safe_get_node|]. intros nd Hnd.
  apply safe_put_node; [done|]. apply not_foreign_owned. simpl.
  apply not_foreign_owned. auto.
Qed.

Lemma safe_set_cow L n v :
  n ∈ L → owned_tag v → safe L (set_cow n v) (λ _, True) (λ _, []).
Proof.
  intros Hn Hv. eapply safe_bind; [apply safe_get_node|]. intros nd Hnd.
  apply safe_put_node; [done|]. by apply not_foreign_owned.
Qed.

Lemma safe_store_item L n i x :
  n ∈ L → safe L (store_item n i x) (λ _, True) (λ _, []).
Proof.
  intros Hn. eapply safe_bind; [apply safe_get_items|]. intros its _.
  destruct (decide (i < length its)); [|apply safe_panic].
  by apply safe_set_items.
Qed.

(** *** The pool *)

Lemma safe_context_freelist L :
  safe L (context_freelist c) (λ f, f = f0) (λ _, []).
Proof.
  intros σ Hp HL. unfold context_freelist, bind, get_context.
  destruct (cows σ !! c) as [cw|] eqn:E; simpl;
    [|split; [by apply ext_refl|done]].
  destruct (cow_freelist cw) as [f|] eqn:Ef; simpl;
    (split; [by apply ext_refl|]); [|done].
  intros v [= <-]. split_and!; [|done|done].
  destruct Hp as [Hp _ _]. by eapply Hp.
Qed.

(** A step that replaces the pool of [c] by a list of nodes that are not
    foreign. *)
Lemma ext_put_pool σ fl :
  pool_ok σ → Forall (nf σ) (fl_freelist fl) →
  ext σ (mkHeap (nodes σ) (<[f0 := fl]> (freelists σ)) (cows σ) (trees σ)).
Proof.
  intros [Hp1 Hp2 Hp3] Hfl. split; try done.
  - split; [exact Hp1| |exact Hp3]. simpl. intros fl' l Hfl' Hl.
    apply list_lookup_insert_Some in Hfl' as [(_ & <- & _)|[? _]]; [|done].
    rewrite Forall_forall in Hfl. by apply Hfl.
  - intros f Hf. simpl. by rewrite list_lookup_insert_ne.
Qed.

Lemma FreeList_newNode_eq σ f :
  FreeList_newNode f σ =
    match freelists σ !! f with
    | None => (Panic NilDereference, σ)
    | Some fl =>
        match length (fl_freelist fl) with
        | 0 => alloc_node σ
        | S index =>
            match fl_freelist fl !! index with
            | Some n =>
                (Ok n, mkHeap (nodes σ)
                         (<[f := mkFreeList (take index (fl_freelist fl))
                                   (fl_cap fl)]> (freelists σ))
                         (cows σ) (trees σ))
            | None => (Panic IndexOutOfRange, σ)
            end
        end
    end.
Proof.
  unfold FreeList_newNode, bind, get_freelist.
  destruct (freelists σ !! f) as [fl|]; [|done].
  destruct (length (fl_freelist fl)) as [|index]; [done|].
  by destruct (fl_freelist fl !! index).
Qed.

Lemma FreeList_freeNode_eq σ f n :
  FreeList_freeNode f n σ =
    match freelists σ !! f with
    | None => (Panic NilDereference, σ)
    | Some fl =>
        if decide (length (fl_freelist fl) < fl_cap fl)
        then (Ok true,
              mkHeap (nodes σ)
                (<[f := mkFreeList (fl_freelist fl ++ [n]) (fl_cap fl)]>
                   (freelists σ))
                (cows σ) (trees σ))
        else (Ok false, σ)
    end.
Proof.
  unfold FreeList_freeNode, bind, get_freelist.
  destruct (freelists σ !! f) as [fl|]; [|done].
  by destruct (decide (length (fl_freelist fl) < fl_cap fl)).
Qed.

Lemma safe_FreeList_newNode L :
  safe L (FreeList_newNode f0) (λ _, True) (λ n, [n]).
Proof.
  intros σ Hp HL. rewrite FreeList_newNode_eq.
  destruct (freelists σ !! f0) as [fl|] eqn:E; simpl;
    [|split; [by apply ext_refl|done]].
  assert (Forall (nf σ) (fl_freelist fl)) as Hfl.
  { rewrite Forall_forall. intros x Hx. destruct Hp as [_ Hp _]. by eapply Hp. }
  destruct (length (fl_freelist fl)) as [|index] eqn:Elen.
  - by apply safe_alloc_node.
  - destruct (lookup_lt_is_Some_2 (fl_freelist fl) index) as [n Hn]; [lia|].
    rewrite Hn. simpl.
    set (fl' := mkFreeList (take index (fl_freelist fl)) (fl_cap fl)).
    assert (ext σ (mkHeap (nodes σ) (<[f0 := fl']> (freelists σ))
                     (cows σ) (trees σ))) as He.
    { apply ext_put_pool; [done|]. simpl.
      rewrite <- (take_drop index (fl_freelist fl)) in Hfl.
      by apply Forall_app in Hfl as [? _]. }
    split; [done|]. intros v [= <-]. split_and!; [done| |].
    + constructor; [|done]. eapply nf_ext; [exact He|].
      rewrite Forall_forall in Hfl. apply Hfl.
      by eapply list_elem_of_lookup_2.
    + rewrite Forall_forall in HL |- *. intros l Hl.
      eapply nf_ext; [exact He|]. auto.
Qed.

Lemma safe_FreeList_freeNode L n :
  n ∈ L → safe L (FreeList_freeNode f0 n) (λ _, True) (λ _, []).
Proof.
  intros Hn σ Hp HL.
  assert (nf σ n) as Hnf by (rewrite Forall_forall in HL; auto).
  rewrite FreeList_freeNode_eq.
  destruct (freelists σ !! f0) as [fl|] eqn:E; simpl;
    [|split; [by apply ext_refl|done]].
  assert (Forall (nf σ) (fl_freelist fl)) as Hfl.
  { rewrite Forall_forall. intros x Hx. destruct Hp as [_ Hp _]. by eapply Hp. }
  destruct (decide (length (fl_freelist fl) < fl_cap fl)); simpl;
    [|split; [by apply ext_refl|done]].
  set (fl' := mkFreeList (fl_freelist fl ++ [n]) (fl_cap fl)).
  assert (ext σ (mkHeap (nodes σ) (<[f0 := fl']> (freelists σ))
                   (cows σ) (trees σ))) as He.
  { apply ext_put_pool; [done|]. simpl. apply Forall_app_2; [done|].
    by constructor. }
  split; [done|]. intros v Hv. split_and!; [done|done|].
  rewrite Forall_forall in HL |- *. intros x Hx.
  eapply nf_ext; [exact He|]. auto.
Qed.

Lemma owned_tag_c : owned_tag (Some c).
Proof. by right. Qed.

Lemma owned_tag_None : owned_tag None.
Proof. by left. Qed.

Lemma safe_cow_newNode L : safe L (cow_newNode c) (λ _, True) (λ n, [n]).
Proof.
  unfold cow_newNode.
  eapply safe_bind; [apply safe_context_freelist|]. intros f ->.
  eapply safe_bind; [apply safe_FreeList_newNode|]. intros n _.
  eapply safe_bind; [apply safe_set_cow; [set_solver|apply owned_tag_c]|].
  intros ? _. apply safe_ret; [done|set_solver].
Qed.

Lemma safe_deref_context L (cow : option cowid) :
  owned_tag cow → safe L (deref_context cow) (λ v, v = c) (λ _, []).
Proof.
  intros [-> | ->]; simpl; [apply safe_panic|].
  apply safe_ret; [done|set_solver].
Qed.

Lemma safe_cow_freeNode L (cow : option cowid) n :
  owned_tag cow → safe L (cow_freeNode cow n) (λ _, True) (λ _, []).
Proof.
  intros Hcow. unfold cow_freeNode.
  eapply safe_bind; [apply safe_get_cow|]. intros nc _.
  destruct (decide (nc = cow)) as [->|]; [|apply safe_ret; [done|set_solver]].
  rewrite (decide_True _ _ Hcow).
  eapply safe_bind; [apply safe_get_items|]. intros its _.
  eapply safe_bind; [apply safe_bounds|]. intros its' _.
  eapply safe_bind; [apply safe_set_items; set_solver|]. intros ? _.
  eapply safe_bind; [apply safe_get_children|]. intros cs _.
  eapply safe_bind; [apply safe_bounds|]. intros cs' _.
  eapply safe_bind; [apply safe_set_children; set_solver|]. intros ? _.
  eapply safe_bind; [apply safe_set_cow; [set_solver|apply owned_tag_None]|].
  intros ? _.
  eapply safe_bind; [apply safe_deref_context; exact Hcow|]. intros c' ->.
  eapply safe_bind; [apply safe_context_freelist|]. intros f ->.
  eapply safe_bind; [apply safe_FreeList_freeNode; set_solver|]. intros b _.
  destruct b; apply safe_ret; done || set_solver.
Qed.
(** *** The handle *)

Lemma safe_get_tree L :
  safe L (get_tree t) (λ tr, t_cow tr = c) (λ _, []).
Proof.
  intros σ Hp HL. unfold get_tree.
  destruct (trees σ !! t) as [tr|] eqn:E; simpl;
    (split; [by apply ext_refl|]); [|done].
  intros v [= <-]. split_and!; [|done|done].
  destruct Hp as [_ _ Hp]. by apply Hp.
Qed.

Lemma safe_put_tree L tr :
  t_cow tr = c → safe L (put_tree t tr) (λ _, True) (λ _, []).
Proof.
  intros Htr σ [Hp1 Hp2 Hp3] HL. simpl. split; [|done].
  split; try done.
  - split; [done|done|]. simpl. intros tr' Htr'.
    apply list_lookup_insert_Some in Htr' as [(_ & <- & _)|[_ ?]]; auto.
  - intros t' Ht'. simpl. by rewrite list_lookup_insert_ne.
Qed.

Lemma safe_set_root L r : safe L (set_root t r) (λ _, True) (λ _, []).
Proof.
  eapply safe_bind; [apply safe_get_tree|]. intros tr Htr.
  by apply safe_put_tree.
Qed.

Lemma safe_set_length L z : safe L (set_length t z) (λ _, True) (λ _, []).
Proof.
  eapply safe_bind; [apply safe_get_tree|]. intros tr Htr.
  by apply safe_put_tree.
Qed.

Lemma safe_add_length L d : safe L (add_length t d) (λ _, True) (λ _, []).
Proof.
  eapply safe_bind; [apply safe_get_tree|]. intros tr Htr.
  apply safe_set_length.
Qed.
End frame_rules.

(** One step of a sequence of calls: the rule of the call, then its
    result and what is known of it. *)
Ltac safe_prim :=
  first
    [ apply safe_get_items | apply safe_get_children
    | apply safe_get_cow_owned; set_solver
    | apply safe_bounds | apply safe_get_node | apply safe_alloc_node
    | apply safe_cow_newNode | apply safe_get_tree
    | apply safe_set_root | apply safe_set_length | apply safe_add_length
    | apply safe_set_items; set_solver
    | apply safe_set_children; set_solver
    | apply safe_store_item; set_solver ].

Ltac safe_end :=
  first
    [ apply safe_panic | apply safe_out_of_fuel
    | apply safe_ret; [done | set_solver] ].

Ltac safe_step :=
  lazymatch goal with
  | |- @safe _ _ _ _ _ _ (bind _ _) _ _ =>
      eapply safe_bind; [safe_prim|]; intros ? ?; cbn beta
  end.

Tactic Notation "safe_step" "as" ident(x) :=
  eapply safe_bind; [safe_prim|]; intros x ?; cbn beta.

(** Case analysis on the condition of the program under [safe]. *)
Ltac safe_if :=
  lazymatch goal with
  | |- @safe _ _ _ _ _ _ (match ?d with _ => _ end) _ _ => destruct d
  end.

(** A conditional statement without a result. *)
Ltac safe_cond :=
  eapply safe_bind with (Φ1 := λ _, True) (Q1 := λ _, []);
    [|intros ? _; cbn beta].

Section frame_nodes.
Context {A : Type} `{Item A}.
Variable c : cowid.
Variable t : treeid.
Variable f0 : flid.
Local Abbreviation M := (M A).
Local Abbreviation safe := (safe (A:=A) c t f0).
Local Abbreviation owned_tag := (owned_tag c).
Implicit Types (n : loc) (L : list loc).

Lemma safe_mutableFor L n (cow : option cowid) :
  owned_tag cow → safe L (mutableFor n cow) (λ _, True) (λ v, [v]).
Proof.
  intros Hcow. unfold mutableFor.
  eapply safe_bind; [apply safe_get_cow|]. intros nc _.
  destruct (decide (nc = cow)) as [->|].
  - apply safe_ret; [done|]. rewrite (decide_True _ _ Hcow). set_solver.
  - eapply safe_bind; [by apply safe_deref_context|]. intros c' ->.
    do 5 safe_step. safe_end.
Qed.

Lemma safe_mutableChild L n i :
  n ∈ L → safe L (mutableChild n i) (λ _, True) (λ v, [v]).
Proof.
  intros Hn. unfold mutableChild.
  do 3 safe_step.
  eapply safe_bind; [apply safe_mutableFor; set_solver|]. intros c1 _.
  safe_step. safe_cond. { safe_if; safe_end. }
  safe_step. safe_end.
Qed.

Lemma safe_split L n i :
  n ∈ L → safe L (split n i) (λ _, True) (λ v, [v.2]).
Proof.
  intros Hn. unfold split.
  do 4 safe_step.
  eapply safe_bind; [apply safe_deref_context; set_solver|]. intros c' ->.
  do 3 safe_step. safe_cond. { safe_if; safe_end. }
  do 5 safe_step. safe_cond.
  { safe_if; [|safe_end].
    safe_step. safe_cond. { safe_if; safe_end. }
    do 3 safe_step. safe_prim. }
  safe_end.
Qed.

Lemma safe_maybeSplitChild L n i maxItems :
  n ∈ L → safe L (maybeSplitChild n i maxItems) (λ _, True) (λ _, []).
Proof.
  intros Hn. unfold maybeSplitChild.
  do 3 safe_step. safe_if; [safe_end|].
  eapply safe_bind; [apply safe_mutableChild; set_solver|]. intros first _.
  eapply safe_bind; [apply safe_split; set_solver|]. intros r _.
  do 6 safe_step. safe_end.
Qed.

Lemma safe_insert L fuel : ∀ n item maxItems,
  n ∈ L → safe L (insert fuel n item maxItems) (λ _, True) (λ _, []).
Proof.
  revert L. induction fuel as [|fuel IH]; intros L n item maxItems Hn;
    simpl; [safe_end|].
  safe_step as its. destruct (find item its) as [i found].
  destruct found.
  { do 2 safe_step. safe_end. }
  safe_step. safe_cond.
  { safe_if; [|safe_end]. do 2 safe_step. safe_prim. }
  eapply safe_bind; [apply safe_maybeSplitChild; set_solver|]. intros b _.
  eapply safe_bind with (Φ1 := λ _, True) (Q1 := λ _, []).
  { destruct b; [|safe_end].
    safe_step. safe_step as inTree. destruct (Less item inTree); [safe_end|].
    destruct (Less inTree item); [safe_end|].
    do 3 safe_step. safe_end. }
  intros [i'|out] _; [|safe_end].
  eapply safe_bind; [apply safe_mutableChild; set_solver|]. intros c1 _.
  apply IH. set_solver.
Qed.
Lemma safe_store_result L n i v :
  n ∈ L → safe L (store_result n i v) (λ _, True) (λ _, []).
Proof.
  intros Hn. destruct v; simpl; [by apply safe_store_item|safe_end].
Qed.

Lemma safe_find_item L (item : option A) its :
  safe L (find_item item its) (λ _, True) (λ _, []).
Proof. destruct item; simpl; [safe_end|]. safe_if; safe_end. Qed.

Lemma safe_growChildAndRemove_body L rem n i item minItems typ :
  (∀ L', n ∈ L' → safe L' (rem n item minItems typ) (λ _, True) (λ _, [])) →
  n ∈ L →
  safe L (growChildAndRemove_body rem n i item minItems typ)
    (λ _, True) (λ _, []).
Proof.
  intros Hrem Hn. unfold growChildAndRemove_body.
  eapply safe_bind with (Φ1 := λ _, True) (Q1 := λ _, []).
  { safe_if; [|safe_end]. repeat safe_step. safe_end. }
  intros left_rich _.
  eapply safe_bind with (Φ1 := λ _, True) (Q1 := λ _, []);
    [|intros ? _; apply Hrem; set_solver].
  destruct left_rich.
  { eapply safe_bind; [apply safe_mutableChild; set_solver|]. intros child _.
    eapply safe_bind; [apply safe_mutableChild; set_solver|].
    intros stealFrom _.
    repeat safe_step. safe_if; [|safe_end].
    repeat safe_step. safe_prim. }
  safe_step.
  eapply safe_bind with (Φ1 := λ _, True) (Q1 := λ _, []).
  { safe_if; [|safe_end]. repeat safe_step. safe_end. }
  intros right_rich _. destruct right_rich.
  { eapply safe_bind; [apply safe_mutableChild; set_solver|]. intros child _.
    eapply safe_bind; [apply safe_mutableChild; set_solver|].
    intros stealFrom _.
    repeat safe_step. safe_if; [|safe_end].
    repeat safe_step. safe_prim. }
  safe_step.
  eapply safe_bind with (Φ1 := λ _, True) (Q1 := λ _, []).
  { safe_if; [|safe_end]. destruct i; safe_end. }
  intros i' _.
  eapply safe_bind; [apply safe_mutableChild; set_solver|]. intros child _.
  repeat safe_step.
  eapply safe_bind; [apply safe_cow_freeNode; assumption|]. intros ? _.
  safe_end.
Qed.

Lemma safe_remove L fuel : ∀ n item minItems typ,
  n ∈ L → safe L (remove fuel n item minItems typ) (λ _, True) (λ _, []).
Proof.
  revert L. induction fuel as [|fuel IH]; intros L n item minItems typ Hn;
    simpl; [safe_end|].
  eapply safe_bind with (Φ1 := λ _, True) (Q1 := λ _, []).
  { destruct typ as [|p|p]; [| |safe_end].
    - safe_step.
      eapply safe_bind; [apply safe_find_item|]. intros r _.
      safe_step. safe_if; [|safe_end].
      destruct (r.2); [|safe_end]. repeat safe_step. safe_end.
    - destruct p as [p|p|]; [safe_end| |].
      + destruct p; try safe_end.
        safe_step. safe_if; [|safe_step; safe_end].
        repeat safe_step. safe_end.
      + safe_step. safe_if; [|safe_end]. repeat safe_step. safe_end. }
  intros [[i found]|out] _; [|safe_end].
  repeat safe_step. safe_if.
  { apply safe_growChildAndRemove_body; [|set_solver].
    intros L' Hn'. by apply IH. }
  eapply safe_bind; [apply safe_mutableChild; set_solver|]. intros child _.
  destruct found; [|apply IH; set_solver].
  repeat safe_step.
  eapply safe_bind; [apply IH; set_solver|]. intros pred _.
  eapply safe_bind; [apply safe_store_result; set_solver|]. intros ? _.
  safe_end.
Qed.

Lemma safe_reset L fuel : ∀ n (cow : option cowid),
  owned_tag cow → safe L (reset fuel n cow) (λ _, True) (λ _, []).
Proof.
  revert L. induction fuel as [|fuel IH]; intros L n cow Hcow;
    simpl; [safe_end|].
  safe_step as cs.
  eapply safe_bind with (Φ1 := λ _, True) (Q1 := λ _, []).
  { generalize ([] ++ L). clear -IH Hcow H. induction cs as [|child cs IHcs];
      intros L'; simpl; [safe_end|].
    eapply safe_bind; [by apply IH|]. intros b _.
    destruct b; simpl; [|safe_end].
    eapply safe_weaken; [apply IHcs|set_solver|done|set_solver]. }
  intros continue _. destruct continue; simpl; [|safe_end].
  eapply safe_bind; [by apply safe_cow_freeNode|]. intros ft _.
  safe_end.
Qed.
End frame_nodes.

Section frame_tree.
Context {A : Type} `{Item A}.
Variable c : cowid.
Variable t : treeid.
Variable f0 : flid.
Local Abbreviation M := (M A).
Local Abbreviation safe := (safe (A:=A) c t f0).
Implicit Types (n : loc) (L : list loc).

Lemma safe_ReplaceOrInsert L fuel item :
  safe L (ReplaceOrInsert fuel t item) (λ _, True) (λ _, []).
Proof.
  unfold ReplaceOrInsert. destruct item as [item|]; [|safe_end].
  eapply safe_bind; [apply safe_get_tree|]. intros tr Htr.
  cbn beta in Htr. rewrite !Htr. destruct (t_root tr) as [r0|].
  - eapply safe_bind; [apply safe_mutableFor; by right|]. intros r _.
    repeat safe_step.
    eapply safe_bind with (Φ1 := λ _, True) (Q1 := λ v, [v]).
    { safe_if; [|safe_end].
      eapply safe_bind; [apply safe_split; set_solver|]. intros p _.
      repeat safe_step. safe_end. }
    intros root _.
    eapply safe_bind; [apply safe_insert; set_solver|].
    intros out _. safe_cond. { safe_if; [safe_prim|safe_end]. }
    safe_end.
  - repeat safe_step. safe_end.
Qed.

Lemma safe_deleteItem L fuel item typ :
  safe L (deleteItem fuel t item typ) (λ _, True) (λ _, []).
Proof.
  unfold deleteItem.
  eapply safe_bind; [apply safe_get_tree|]. intros tr Htr.
  cbn beta in Htr. rewrite !Htr.
  destruct (t_root tr) as [r0|]; [|safe_end].
  safe_step. safe_if; [safe_end|].
  eapply safe_bind; [apply safe_mutableFor; by right|]. intros r _.
  safe_step.
  eapply safe_bind; [apply safe_remove; set_solver|]. intros out _.
  repeat safe_step. safe_cond.
  { safe_if; [|safe_end]. repeat safe_step.
    eapply safe_bind; [apply safe_cow_freeNode; by right|]. intros ? _.
    safe_end. }
  safe_cond. { destruct out; [safe_prim|safe_end]. }
  safe_end.
Qed.

Lemma safe_Clear L fuel b :
  safe L (Clear fuel t b) (λ _, True) (λ _, []).
Proof.
  unfold Clear.
  eapply safe_bind; [apply safe_get_tree|]. intros tr Htr.
  cbn beta in Htr. rewrite !Htr. safe_cond.
  { destruct (t_root tr); [|safe_end]. destruct b; [|safe_end].
    eapply safe_bind; [apply safe_reset; by right|]. intros ? _. safe_end. }
  eapply safe_bind; [apply safe_get_tree|]. intros tr' Htr'.
  by apply safe_put_tree.
Qed.

Lemma safe_run_op L fuel o :
  safe L (run_op fuel t o) (λ _, True) (λ _, []).
Proof.
  destruct o; cbv [run_op Delete DeleteMin DeleteMax];
    first [apply safe_ReplaceOrInsert|apply safe_deleteItem].
Qed.
End frame_tree.

(** ** Running the primitives *)

Section exec.
Context {A : Type}.
Local Abbreviation M := (M A).
Implicit Types (σ : heap A) (n : loc) (nd : node A).

Lemma bind_ret {R R'} (v : R) (k : R → M R') σ : bind (ret v) k σ = k v σ.
Proof. done. Qed.

Lemma bind_ok {R R'} (m : M R) (k : R → M R') σ v σ' :
  m σ = (Ok v, σ') → bind m k σ = k v σ'.
Proof. intros E. unfold bind. by rewrite E. Qed.

Lemma bind_panic {R R'} f (k : R → M R') σ :
  bind (panic f) k σ = (Panic f, σ).
Proof. done. Qed.

Lemma bind_assoc {R R' R''} (m : M R) (k : R → M R') (k' : R' → M R'') σ :
  bind (bind m k) k' σ = bind m (λ x, bind (k x) k') σ.
Proof. unfold bind. by destruct (m σ) as [[?|?|] ?]. Qed.

Lemma bind_bounds_Some {R R'} (o : option R) v (k : R → M R') σ :
  o = Some v → bind (bounds o) k σ = k v σ.
Proof. by intros ->. Qed.

Lemma bind_bounds_None {R R'} (o : option R) (k : R → M R') σ :
  o = None → bind (bounds o) k σ = (Panic IndexOutOfRange, σ).
Proof. by intros ->. Qed.

Lemma bind_get_node {R'} n nd (k : node A → M R') σ :
  nodes σ !! n = Some nd → bind (get_node n) k σ = k nd σ.
Proof. intros E. unfold bind, get_node. by rewrite E. Qed.

Lemma bind_get_items {R'} n nd (k : list A → M R') σ :
  nodes σ !! n = Some nd → bind (get_items n) k σ = k (n_items nd) σ.
Proof. intros E. unfold get_items. by rewrite bind_assoc, (bind_get_node _ _ _ _ E). Qed.

Lemma bind_get_children {R'} n nd (k : list loc → M R') σ :
  nodes σ !! n = Some nd → bind (get_children n) k σ = k (n_children nd) σ.
Proof. intros E. unfold get_children. by rewrite bind_assoc, (bind_get_node _ _ _ _ E). Qed.

Lemma bind_get_cow {R'} n nd (k : option cowid → M R') σ :
  nodes σ !! n = Some nd → bind (get_cow n) k σ = k (n_cow nd) σ.
Proof. intros E. unfold get_cow. by rewrite bind_assoc, (bind_get_node _ _ _ _ E). Qed.

Lemma bind_get_items_None {R'} n (k : list A → M R') σ :
  nodes σ !! n = None → bind (get_items n) k σ = (Panic NilDereference, σ).
Proof. intros E. unfold get_items, bind, get_node. by rewrite E. Qed.

Lemma bind_set_items {R'} n nd its (k : unit → M R') σ :
  nodes σ !! n = Some nd →
  bind (set_items n its) k σ =
    k () (with_node σ n (mkNode its (n_children nd) (n_cow nd))).
Proof. intros E. unfold set_items. by rewrite bind_assoc, (bind_get_node _ _ _ _ E). Qed.

Lemma bind_set_children {R'} n nd cs (k : unit → M R') σ :
  nodes σ !! n = Some nd →
  bind (set_children n cs) k σ =
    k () (with_node σ n (mkNode (n_items nd) cs (n_cow nd))).
Proof. intros E. unfold set_children. by rewrite bind_assoc, (bind_get_node _ _ _ _ E). Qed.

Lemma bind_set_cow {R'} n nd v (k : unit → M R') σ :
  nodes σ !! n = Some nd →
  bind (set_cow n v) k σ =
    k () (with_node σ n (mkNode (n_items nd) (n_children nd) v)).
Proof. intros E. unfold set_cow. by rewrite bind_assoc, (bind_get_node _ _ _ _ E). Qed.

Lemma bind_get_tree {R'} (t : treeid) tr (k : BTree → M R') σ :
  trees σ !! t = Some tr → bind (get_tree t) k σ = k tr σ.
Proof. intros E. unfold bind, get_tree. by rewrite E. Qed.

Lemma with_node_lookup σ n nd :
  n < length (nodes σ) → nodes (with_node σ n nd) !! n = Some nd.
Proof. intros Hn. simpl. by apply list_lookup_insert_eq. Qed.

Lemma with_node_lookup_ne σ n n' nd :
  n ≠ n' → nodes (with_node σ n nd) !! n' = nodes σ !! n'.
Proof. intros Hn. simpl. by apply list_lookup_insert_ne. Qed.
End exec.

(** One step of symbolic execution: the first call of the program is a
    primitive whose operand is known from the context. *)
Ltac known_node :=
  first
    [ eassumption
    | apply with_node_lookup; eapply lookup_lt_Some; eassumption ].

Ltac mstep :=
  rewrite ?bind_assoc;
  first
    [ rewrite bind_ret
    | erewrite bind_get_items by known_node
    | erewrite bind_get_children by known_node
    | erewrite bind_get_cow by known_node
    | erewrite bind_get_node by known_node
    | erewrite bind_set_items by known_node
    | erewrite bind_set_children by known_node
    | erewrite bind_set_cow by known_node
    | erewrite bind_get_tree by eassumption
    | erewrite bind_bounds_Some by eassumption ];
  cbn beta iota.

(** ** Reads of a shared tree *)

Section sharing_lemmas.
Context {A : Type} `{Item A}.
Implicit Types (σ : heap A) (l n : loc) (nd : node A).

Lemma get_unfold fuel n (key : A) σ :
  get (S fuel) n key σ =
    match nodes σ !! n with
    | None => (Panic NilDereference, σ)
    | Some nd =>
        let '(i, found) := find key (n_items nd) in
        if found : bool then
          match n_items nd !! i with
          | Some x => (Ok (Some x), σ)
          | None => (Panic IndexOutOfRange, σ)
          end
        else if decide (0 < length (n_children nd)) then
          match n_children nd !! i with
          | Some c => get fuel c key σ
          | None => (Panic IndexOutOfRange, σ)
          end
        else (Ok None, σ)
    end.
Proof.
  cbn [get]. destruct (nodes σ !! n) as [nd|] eqn:E.
  2:{ by rewrite bind_get_items_None. }
  rewrite (bind_get_items _ _ _ _ E).
  destruct (find key (n_items nd)) as [i found].
  destruct found.
  - by destruct (n_items nd !! i).
  - rewrite (bind_get_children _ _ _ _ E).
    destruct (decide (0 < length (n_children nd))); [|done].
    by destruct (n_children nd !! i).
Qed.

Lemma get_readonly fuel : ∀ n (key : A) σ, (get fuel n key σ).2 = σ.
Proof.
  induction fuel as [|fuel IH]; intros n key σ; [done|].
  rewrite get_unfold. destruct (nodes σ !! n) as [nd|]; [|done].
  destruct (find key (n_items nd)) as [i found]. destruct found.
  - by destruct (n_items nd !! i).
  - destruct (decide (0 < length (n_children nd))); [|done].
    destruct (n_children nd !! i); [apply IH|done].
Qed.

Lemma tagged_tree_child bound ns h l nd i c0 :
  tagged_tree bound ns (S h) l = true →
  ns !! l = Some nd → n_children nd !! i = Some c0 →
  tagged_tree bound ns h c0 = true.
Proof.
  simpl. intros Ht Hl Hc. rewrite Hl in Ht.
  destruct (n_cow nd); [|done].
  apply andb_true_iff in Ht as [_ Ht].
  rewrite forallb_forall in Ht. apply Ht.
  apply list_elem_of_In. by eapply list_elem_of_lookup_2.
Qed.

Lemma tagged_tree_keeps bound ns ns' h l nd :
  keeps_tagged bound ns ns' →
  tagged_tree bound ns (S h) l = true →
  ns !! l = Some nd → ns' !! l = Some nd.
Proof.
  simpl. intros Hk Ht Hl. rewrite Hl in Ht.
  destruct (n_cow nd) as [c'|] eqn:Ec; [|done].
  apply andb_true_iff in Ht as [Hb _]. apply bool_decide_eq_true in Hb.
  by eapply Hk.
Qed.

(** A lookup in a tree all of whose nodes are kept gives the same result. *)
Lemma get_agree bound σ σ' (key : A) :
  keeps_tagged bound (nodes σ) (nodes σ') →
  ∀ fuel h l, tagged_tree bound (nodes σ) h l = true →
    (get fuel l key σ').1 = (get fuel l key σ).1.
Proof.
  intros Hk. induction fuel as [|fuel IH]; intros h l Ht; [done|].
  destruct h as [|h]; [done|].
  rewrite !get_unfold.
  destruct (nodes σ !! l) as [nd|] eqn:El.
  2:{ simpl in Ht. by rewrite El in Ht. }
  rewrite (tagged_tree_keeps bound _ _ h l nd Hk Ht El).
  destruct (find key (n_items nd)) as [i found]. destruct found.
  - by destruct (n_items nd !! i).
  - destruct (decide (0 < length (n_children nd))); [|done].
    destruct (n_children nd !! i) as [c0|] eqn:Ec; [|done].
    apply (IH h). by eapply tagged_tree_child.
Qed.
End sharing_lemmas.

(** ** Clone *)

Section clone.
Context {A : Type} `{Item A}.
Implicit Types (σ : heap A) (l n : loc) (nd : node A) (t : treeid).

Lemma Clone_eq σ t tr cw :
  trees σ !! t = Some tr → cows σ !! t_cow tr = Some cw →
  Clone t σ = (Ok (length (trees σ)), cloned σ t tr cw).
Proof.
  intros Ht Hc. unfold Clone. rewrite (bind_get_tree _ _ _ _ Ht).
  unfold bind at 1, get_context. rewrite Hc.
  unfold bind at 1, alloc_context. cbn beta iota.
  unfold bind at 1. cbn beta iota.
  unfold set_tree_cow. rewrite bind_assoc.
  erewrite bind_get_tree by exact Ht.
  unfold bind, put_tree, alloc_tree. cbn.
  by rewrite length_insert.
Qed.

(** After [Clone], whatever a handle does through its new context [c]
    keeps every node that carried a tag before. *)
Lemma clone_pool_ok σ t tr cw (c : cowid) (t' : treeid) tr' :
  (∀ f, cow_freelist cw = Some f → pool_clean σ f = true) →
  cows (cloned σ t tr cw) !! c = Some cw →
  trees (cloned σ t tr cw) !! t' = Some tr' → t_cow tr' = c →
  ∃ f0, pool_ok c t' f0 (cloned σ t tr cw).
Proof.
  intros Hclean Hc Ht' Hcow.
  exists (match cow_freelist cw with
          | Some f => f
          | None => length (freelists σ)
          end).
  split.
  - intros cw' f Hcw' Hf. rewrite Hc in Hcw'. injection Hcw' as <-.
    by rewrite Hf.
  - intros fl l Hfl Hl nd Hnd (c' & Hc' & _). simpl in Hfl, Hnd.
    destruct (cow_freelist cw) as [f|] eqn:Ef.
    + specialize (Hclean f eq_refl). unfold pool_clean in Hclean.
      rewrite Hfl in Hclean. rewrite forallb_forall in Hclean.
      specialize (Hclean l). rewrite Hnd in Hclean.
      apply list_elem_of_In in Hl. specialize (Hclean Hl).
      apply bool_decide_eq_true in Hclean. congruence.
    + apply lookup_lt_Some in Hfl. lia.
  - intros tr'' Htr''. congruence.
Qed.

Lemma ext_keeps_tagged (c : cowid) t f0 σ σ' bound :
  bound ≤ c → ext c t f0 σ σ' → keeps_tagged bound (nodes σ) (nodes σ').
Proof.
  intros Hb [Hsf _ _ _ _] l nd c' Hl Hc' Hlt.
  apply (Hsf l nd); [|done]. exists c'. split; [done|lia].
Qed.

Lemma Len_eq t tr σ : trees σ !! t = Some tr → Len t σ = (Ok (t_length tr), σ).
Proof. intros Ht. unfold Len. by rewrite (bind_get_tree _ _ _ _ Ht). Qed.

Lemma Get_eq fuel t tr (key : A) σ :
  trees σ !! t = Some tr →
  Get fuel t key σ =
    match t_root tr with
    | None => (Ok None, σ)
    | Some r => get fuel r key σ
    end.
Proof.
  intros Ht. unfold Get. rewrite (bind_get_tree _ _ _ _ Ht).
  by destruct (t_root tr).
Qed.

(** What one handle reads is not changed by what the other one writes. *)
Lemma reads_kept (c : cowid) (tw tr_ : treeid) f0 σ σ' (trd : BTree) h :
  pool_ok c tw f0 σ →
  ext c tw f0 σ σ' →
  tr_ ≠ tw →
  trees σ !! tr_ = Some trd →
  (∀ bound r, bound ≤ c → t_root trd = Some r →
     tagged_tree bound (nodes σ) h r = true →
     ∀ fuel key, (get fuel r key σ').1 = (get fuel r key σ).1) ∧
  (Len tr_ σ').1 = (Len tr_ σ).1 ∧
  trees σ' !! tr_ = Some trd.
Proof.
  intros Hp He Hne Htr.
  assert (trees σ' !! tr_ = Some trd) as Htr'.
  { destruct He as [_ _ _ Hot _]. by rewrite Hot. }
  split_and!; [|by rewrite (Len_eq _ _ _ Htr), (Len_eq _ _ _ Htr')|done].
  intros bound r Hb Hr Htag fuel key.
  eapply get_agree; [|exact Htag]. by eapply ext_keeps_tagged.
Qed.
End clone.

(** ** Releasing a node *)

Section release.
Context {A : Type} `{Item A}.
Implicit Types (σ : heap A) (t : treeid) (n : loc) (nd : node A).

Lemma cow_freeNode_not_owned σ (c : option cowid) n nd :
  nodes σ !! n = Some nd → n_cow nd ≠ c →
  cow_freeNode c n σ = (Ok ftNotOwned, σ).
Proof.
  intros Hn Hc. unfold cow_freeNode. rewrite (bind_get_cow _ _ _ _ Hn).
  by rewrite decide_False.
Qed.

Lemma pool_okb_sound c t f0 σ : pool_okb c t f0 σ = true → pool_ok c t f0 σ.
Proof.
  unfold pool_okb. rewrite !andb_true_iff. intros [[H1 H2] H3]. split.
  - intros cw f Hcw Hf. rewrite Hcw, Hf in H1.
    by apply bool_decide_eq_true in H1.
  - intros fl l Hfl Hl nd Hnd. rewrite Hfl in H2.
    rewrite forallb_forall in H2. apply list_elem_of_In in Hl.
    specialize (H2 l Hl). rewrite Hnd in H2.
    apply bool_decide_eq_true in H2. by apply not_foreign_owned.
  - intros tr Htr. rewrite Htr in H3. by apply bool_decide_eq_true in H3.
Qed.

Lemma ext_foreign_kept c t f0 σ σ' l nd :
  ext c t f0 σ σ' → nodes σ !! l = Some nd → foreign c nd →
  nodes σ' !! l = Some nd ∧ ¬ in_pool σ' f0 l.
Proof.
  intros [Hsf Hp _ _ _] Hl Hf.
  assert (nodes σ' !! l = Some nd) as Hl' by (by apply (Hsf l nd Hf)).
  split; [done|]. intros (fl & Hfl & Hin).
  destruct Hp as [_ Hp _]. exact (Hp fl l Hfl Hin nd Hl' Hf).
Qed.
End release.

(** ** Inserting into a leaf *)

Lemma Search_loop_range f : ∀ fuel i j,
  i ≤ j → i ≤ Search_loop fuel i j f ≤ j.
Proof.
  induction fuel as [|fuel IH]; intros i j Hij; simpl; [lia|].
  destruct (decide (i < j)) as [Hlt|]; [|lia].
  pose proof (div2_between i j Hlt) as [? ?].
  destruct (negb (f (Nat.div2 (i + j)))).
  - specialize (IH (Nat.div2 (i + j) + 1) j). lia.
  - specialize (IH i (Nat.div2 (i + j))). lia.
Qed.

Lemma find_index_le {A} `{Item A} (item : A) (l : list A) :
  (find item l).1 ≤ length l.
Proof.
  unfold find, Search.
  pose proof (Search_loop_range (find_pred item l) (length l) 0 (length l)).
  destruct (Search_loop _ _ _ _) as [|m]; simpl; [lia|].
  destruct (l !! m) as [y|]; [|simpl; lia].
  destruct (negb (Less y item)); simpl; lia.
Qed.

Section leaf_insert.
Context {A : Type} `{Item A}.
Implicit Types (σ : heap A) (n : loc) (nd : node A).

(** [insert] on a leaf that holds no element equal to [item]. *)
Lemma insert_leaf_absent σ n nd (item : A) (maxItems : Z)
    (fuel : nat) :
  nodes σ !! n = Some nd →
  n_children nd = [] →
  (find item (n_items nd)).2 = false →
  insert (S fuel) n item maxItems σ =
    (Panic IndexOutOfRange,
     with_node σ n
       (mkNode (take (find item (n_items nd)).1 (n_items nd)
                ++ item :: drop (find item (n_items nd)).1 (n_items nd))
          [] (n_cow nd))).
Proof.
  intros Hn Hcs Hfound. cbn [insert].
  rewrite (bind_get_items _ _ _ _ Hn).
  pose proof (find_index_le item (n_items nd)) as Hle.
  destruct (find item (n_items nd)) as [i found]. simpl in *. subst found.
  rewrite (bind_get_children _ _ _ _ Hn), Hcs. simpl length.
  rewrite decide_True by done.
  rewrite !bind_assoc, (bind_get_items _ _ _ _ Hn).
  unfold insertAt. rewrite decide_True by done.
  rewrite bind_assoc. erewrite bind_bounds_Some by reflexivity.
  rewrite (bind_set_items _ _ _ _ _ Hn), Hcs.
  unfold maybeSplitChild. rewrite !bind_assoc.
  erewrite bind_get_children
    by (apply with_node_lookup; by eapply lookup_lt_Some).
  simpl. by rewrite bind_assoc.
Qed.
End leaf_insert.

(** ** Sorted lists and the bounds of a traversal *)

Section ranges.
Context {A : Type} `{ItemOrder A}.
Implicit Types (l : list A) (a x y : A).

Lemma Less_asym x y : Less x y = true → Less y x = false.
Proof.
  intros Hxy. destruct (Less y x) eqn:Hyx; [|done].
  pose proof (Less_trans x y x Hxy Hyx) as Hxx.
  by rewrite Less_irrefl in Hxx.
Qed.

(** [x < y] and [x] not below [a]: [y] is not below [a] either. *)
Lemma not_below_mono a x y :
  Less x y = true → Less x a = false → Less y a = false.
Proof.
  intros Hxy Hxa. destruct (Less y a) eqn:Hya; [|done].
  by rewrite (Less_trans x y a Hxy Hya) in Hxa.
Qed.

Lemma ascending_app l1 l2 :
  ascending (l1 ++ l2) ↔
  ascending l1 ∧ ascending l2
  ∧ ∀ x y, x ∈ l1 → y ∈ l2 → Less x y = true.
Proof.
  induction l1 as [|z l1 IH]; simpl.
  - split; [intros ?; split_and!; [done|done|]|tauto].
    intros x y Hx. by apply not_elem_of_nil in Hx.
  - rewrite Forall_app, IH. split.
    + intros [[Hz1 Hz2] (Hs1 & Hs2 & Hc)]. split_and!; try done.
      intros x y [->|Hx]%elem_of_cons Hy.
      * rewrite Forall_forall in Hz2. auto.
      * auto.
    + intros ([Hz1 Hs1] & Hs2 & Hc). split_and!; try done.
      * rewrite Forall_forall. intros y Hy. apply Hc; [left|done].
      * intros x y Hx Hy. apply Hc; [by right|done].
Qed.

Lemma ascending_cons x l :
  ascending (x :: l) ↔ Forall (λ y, Less x y = true) l ∧ ascending l.
Proof. done. Qed.

Lemma drop_below_all a l1 l2 :
  Forall (λ x, Less x a = true) l1 →
  drop_below a (l1 ++ l2) = drop_below a l2.
Proof.
  induction 1 as [|x l1 Hx _ IH]; [done|]. simpl. by rewrite Hx.
Qed.

Lemma drop_below_none a l :
  Forall (λ x, Less x a = false) l → drop_below a l = l.
Proof. destruct 1 as [|x l Hx _]; [done|]. simpl. by rewrite Hx. Qed.

Lemma drop_below_app a l1 l2 :
  Forall (λ x, Less x a = false) l2 →
  drop_below a (l1 ++ l2) = drop_below a l1 ++ l2.
Proof.
  intros H2. induction l1 as [|x l1 IH]; simpl.
  - by apply drop_below_none.
  - destruct (Less x a); [apply IH|done].
Qed.

(** What [find] returns as index on a sorted slice: everything before it
    is below [a], the element at it is not. *)
Lemma find_index_splits a l :
  ascending l →
  (∀ j x, j < (find a l).1 → l !! j = Some x → Less x a = true)
  ∧ (∀ x, l !! (find a l).1 = Some x → Less x a = false).
Proof.
  intros Hs. rewrite (find_first_above a l Hs). cbn zeta.
  pose proof (first_above_le a l) as Hle.
  pose proof (first_above_before a l) as Hbefore.
  pose proof (first_above_at a l) as Hat.
  set (n := first_above a l) in *.
  assert (∀ j x, j < n → l !! j = Some x → Less x a = false → ∀ j' x',
            j' < j → l !! j' = Some x' → Less x' a = true) as Hprev.
  { intros j x Hj Hx Hxa j' x' Hj' Hx'.
    pose proof (ascending_lookup l j' j x' x Hs Hx' Hx Hj') as Hlt.
    destruct (Less_cotrans x' x a Hlt) as [?|Hax]; [done|].
    by rewrite (Hbefore j x Hj Hx) in Hax. }
  unfold equal_before. destruct n as [|m] eqn:En.
  - simpl. split; [intros; lia|].
    intros x Hx. destruct Hat as (y & Hy & Hay); [by eapply lookup_lt_Some|].
    assert (y = x) as -> by congruence. by apply Less_asym.
  - destruct (l !! m) as [y|] eqn:Em.
    2:{ apply lookup_ge_None in Em. lia. }
    destruct (Less y a) eqn:Hya; simpl.
    + split.
      * intros j x Hj Hx.
        destruct (decide (j = m)) as [->|]; [congruence|].
        eapply Less_trans; [|exact Hya].
        apply (ascending_lookup l j m); auto with lia.
      * intros x Hx. destruct Hat as (z & Hz & Haz); [by eapply lookup_lt_Some|].
        assert (z = x) as -> by congruence. by apply Less_asym.
    + rewrite Nat.sub_0_r. split.
      * intros j x Hj Hx. eapply (Hprev m y); eauto with lia.
      * intros x Hx. congruence.
Qed.
Lemma map_fixed {B} (f : B → B) (l : list B) :
  Forall (λ e, f e = e) l → map f l = l.
Proof. induction 1 as [|e l He _ IH]; simpl; congruence. Qed.

Lemma elem_of_weave (es : list (list A)) ks e x :
  e ∈ es → x ∈ e → x ∈ weave es ks.
Proof.
  revert ks. induction es as [|e0 es IH]; intros ks He Hx.
  - by apply not_elem_of_nil in He.
  - apply elem_of_cons in He as [->|He].
    + destruct ks; simpl; apply elem_of_app; by left.
    + destruct ks as [|k ks]; simpl; apply elem_of_app; right.
      * apply list_elem_of_In, in_concat. exists e.
        split; by apply list_elem_of_In.
      * right. by apply IH.
Qed.

Lemma elem_of_weave_sep (es : list (list A)) ks x :
  x ∈ ks → x ∈ weave es ks.
Proof.
  revert ks. induction es as [|e0 es IH]; intros ks Hx; [done|].
  destruct ks as [|k ks]; [by apply not_elem_of_nil in Hx|]. simpl.
  apply elem_of_app. right.
  apply elem_of_cons in Hx as [->|Hx]; [by left|]. right. by apply IH.
Qed.

(** Dropping what is below [a] from a sorted node: the children and items
    before the index are dropped whole, the child at the index is cut, the
    rest is kept. *)
Lemma drop_below_weave a (es : list (list A)) : ∀ its index,
  (es = [] ∨ length es = S (length its)) →
  ascending (weave es its) →
  (∀ j x, j < index → its !! j = Some x → Less x a = true) →
  (∀ x, its !! index = Some x → Less x a = false) →
  index ≤ length its →
  drop_below a (weave es its) =
    weave (drop index (map (drop_below a) es)) (drop index its).
Proof.
  induction es as [|e0 es IH]; intros its index Hshape Hs Hlo Hat Hle.
  - simpl. rewrite drop_nil. simpl. clear Hshape.
    revert index Hlo Hat Hle. induction its as [|k0 ks IHks];
      intros index Hlo Hat Hle.
    + by rewrite drop_nil.
    + destruct index as [|i]; simpl.
      * by rewrite (Hat k0 eq_refl).
      * rewrite (Hlo 0 k0) by (done || lia).
        apply IHks.
        -- by destruct Hs.
        -- intros j x Hj Hx. apply (Hlo (S j) x); [lia|done].
        -- intros x Hx. by apply Hat.
        -- simpl in Hle. lia.
  - destruct Hshape as [?|Hlen]; [done|]. simpl in Hlen.
    destruct its as [|k0 ks].
    + destruct es; [|done]. assert (index = 0) as -> by (simpl in Hle; lia).
      simpl. by rewrite !app_nil_r.
    + simpl in Hs. apply ascending_app in Hs as (Hs0 & Hs1 & Hcross).
      destruct index as [|i].
      * simpl. assert (Less k0 a = false) as Hk0 by (by apply Hat).
        assert (Forall (λ x, Less x a = false) (k0 :: weave es ks)) as Hrest.
        { constructor; [done|]. destruct Hs1 as [Hk _].
          eapply Forall_impl; [exact Hk|]. intros y Hy.
          by apply (not_below_mono a k0 y). }
        rewrite drop_below_app by done. f_equal. f_equal. f_equal.
        symmetry. apply map_fixed. rewrite Forall_forall.
        intros e He. apply drop_below_none. rewrite Forall_forall.
        intros x Hx. apply Forall_cons in Hrest as [_ Hrest].
        rewrite Forall_forall in Hrest. apply Hrest.
        by eapply elem_of_weave.
      * assert (Less k0 a = true) as Hk0 by (apply (Hlo 0); [lia|done]).
        simpl.
        change (e0 ++ k0 :: weave es ks) with (e0 ++ [k0] ++ weave es ks).
        rewrite app_assoc, drop_below_all.
        2:{ apply Forall_app. split; [|by constructor].
            rewrite Forall_forall. intros x Hx.
            eapply Less_trans; [|exact Hk0]. apply Hcross; [done|left]. }
        apply IH.
        -- right. simpl in Hlen. lia.
        -- by destruct Hs1.
        -- intros j x Hj Hx. apply (Hlo (S j) x); [lia|done].
        -- intros x Hx. by apply Hat.
        -- simpl in Hle. lia.
Qed.

Lemma weave_segments (es : list (list A)) its : ∀ k index,
  (es = [] ∨ length es = S (length its)) →
  index + k = length its →
  weave (drop index es) (drop index its) =
    flat_map (segment es its) (seq index k) ++ default [] (es !! length its).
Proof.
  induction k as [|k IH]; intros index Hshape Hk.
  - assert (index = length its) as -> by lia. rewrite drop_all. simpl.
    destruct Hshape as [->|Hlen]; [by rewrite drop_nil|].
    destruct (lookup_lt_is_Some_2 es (length its)) as [e He]; [lia|].
    rewrite He. simpl. rewrite (drop_S _ _ _ He), drop_ge by lia.
    simpl. by rewrite app_nil_r.
  - destruct (lookup_lt_is_Some_2 its index) as [k0 Hk0]; [lia|].
    rewrite (drop_S _ _ _ Hk0). cbn [seq flat_map]. unfold segment at 1.
    rewrite Hk0. destruct Hshape as [->|Hlen].
    + rewrite drop_nil. simpl. f_equal.
      specialize (IH (S index) (or_introl eq_refl)).
      rewrite drop_nil in IH. simpl in IH. apply IH. lia.
    + destruct (lookup_lt_is_Some_2 es index) as [e He]; [lia|].
      rewrite He, (drop_S _ _ _ He). simpl. rewrite <- !app_assoc. simpl.
      f_equal. f_equal. apply IH; [by right|lia].
Qed.
End ranges.

Section scanning.
Context {A : Type} `{ItemOrder A} {St : Type}.
Implicit Types (l : list A) (iter : ItemIterator (A:=A) (St:=St)) (s : St).

Lemma scan_app stop iter l1 l2 s :
  scan stop iter (l1 ++ l2) s =
    if (scan stop iter l1 s).1 then scan stop iter l2 (scan stop iter l1 s).2
    else (false, (scan stop iter l1 s).2).
Proof.
  revert s. induction l1 as [|x l1 IH]; intros s; simpl.
  - by destruct (scan stop iter l2 s).
  - destruct (not_less_bound x stop); [done|].
    destruct (iter x s) as [continue s']. destruct continue; [apply IH|done].
Qed.

Lemma ascending_weave_seps (es : list (list A)) ks :
  ascending (weave es ks) → ascending ks.
Proof.
  revert ks. induction es as [|e es IH]; intros ks Hs; [done|].
  destruct ks as [|k ks]; [done|]. simpl in Hs.
  apply ascending_app in Hs as (_ & [Hk Hs] & _). split.
  - rewrite Forall_forall in Hk |- *. intros y Hy. apply Hk.
    by apply elem_of_weave_sep.
  - by apply IH.
Qed.

Lemma ascending_concat_elem (es : list (list A)) e :
  ascending (concat es) → e ∈ es → ascending e.
Proof.
  induction es as [|e0 es IH]; intros Hs He.
  - by apply not_elem_of_nil in He.
  - simpl in Hs. apply ascending_app in Hs as (Hs0 & Hs1 & _).
    apply elem_of_cons in He as [->|He]; auto.
Qed.

Lemma ascending_weave_elem (es : list (list A)) ks e :
  ascending (weave es ks) → e ∈ es → ascending e.
Proof.
  revert ks. induction es as [|e0 es IH]; intros ks Hs He.
  - by apply not_elem_of_nil in He.
  - destruct ks as [|k ks]; simpl in Hs;
      apply ascending_app in Hs as (Hs0 & Hs1 & _);
      apply elem_of_cons in He as [->|He]; try done.
    + by eapply ascending_concat_elem.
    + destruct Hs1 as [_ Hs1]. by eapply IH.
Qed.

Lemma filter_none (f : A → bool) l :
  Forall (λ x, f x = false) l → List.filter f l = [].
Proof. induction 1 as [|x l Hx _ IH]; simpl; [done|]. by rewrite Hx. Qed.

Lemma filter_same (f g : A → bool) l :
  Forall (λ x, f x = g x) l → List.filter f l = List.filter g l.
Proof. induction 1 as [|x l Hx _ IH]; simpl; [done|]. by rewrite Hx, IH. Qed.

(** On a sorted list, scanning from the lower bound up to the upper bound
    calls the iterator on the elements within the bounds. *)
Lemma scan_unbounded_below stop iter l s :
  ascending l →
  (scan stop iter l s).2 = visit iter (List.filter (in_range None stop) l) s.
Proof.
  revert s. induction l as [|x l IH]; intros s Hs; [done|].
  destruct Hs as [Hx Hs]. cbn [scan List.filter].
  unfold in_range at 1, not_less_bound. cbn [negb andb].
  destruct stop as [b|].
  - destruct (Less x b) eqn:Hxb; cbn [negb].
    + cbn [visit]. destruct (iter x s) as [continue s'].
      destruct continue; [by apply IH|done].
    + rewrite filter_none; [done|].
      eapply Forall_impl; [exact Hx|]. intros y Hy. unfold in_range. simpl.
      by apply (not_below_mono b x y).
  - cbn [visit]. destruct (iter x s) as [continue s'].
    destruct continue; [by apply IH|done].
Qed.

Lemma scan_within start stop iter l s :
  ascending l →
  (scan stop iter (from_bound start l) s).2 =
    visit iter (List.filter (in_range start stop) l) s.
Proof.
  destruct start as [a|]; [|apply scan_unbounded_below]. simpl.
  induction l as [|x l IH]; intros Hs; [done|].
  destruct Hs as [Hx Hs]. cbn [drop_below List.filter].
  unfold in_range at 1. destruct (Less x a) eqn:Hxa; cbn [negb andb].
  - by apply IH.
  - assert (ascending (x :: l)) as Hs' by done.
    rewrite (scan_unbounded_below stop iter (x :: l) s Hs').
    f_equal. cbn [List.filter]. unfold in_range at 1. cbn [negb andb].
    assert (List.filter (in_range None stop) l
            = List.filter (in_range (Some a) stop) l) as ->; [|done].
    apply filter_same. eapply Forall_impl; [exact Hx|]. intros y Hy.
    unfold in_range. by rewrite (not_below_mono a x y).
Qed.
End scanning.

(** ** The ascending traversal *)

Section iterate_spec.
Context {A : Type} `{ItemOrder A} {St : Type}.
Implicit Types (σ : heap A) (l c : loc) (T : tree A).
Implicit Types (iter : ItemIterator (A:=A) (St:=St)) (s : St).

Lemma ascend_loop_spec rec σ its cs es start stop includeStart iter :
  (includeStart = true ∨ start = None) →
  Forall2 (rec_ok rec σ stop iter) cs es →
  ∀ idx,
    (∀ i, i ∈ idx → i < length its ∧ (0 < length cs → i < length cs)) →
    ∀ hit s, ∃ hit',
      ascend_loop rec its cs start stop includeStart iter idx hit s σ =
        (Ok (hit', (scan stop iter (flat_map (segment es its) idx) s).1,
             (scan stop iter (flat_map (segment es its) idx) s).2), σ).
Proof.
  intros Hincl Hrec. induction idx as [|i idx IH]; intros Hidx hit s.
  { exists hit. done. }
  destruct (Hidx i) as [Hi Hic]; [left|].
  destruct (lookup_lt_is_Some_2 its i Hi) as [k Hk].
  assert (∀ hit1 s1, ∃ hit',
    (x <- bounds (its !! i) ;;
     if negb includeStart && negb hit1 && bound_not_less start x then
       ascend_loop rec its cs start stop includeStart iter idx true s1
     else
       if not_less_bound x stop then ret (true, false, s1)
       else
         let '(continue, s2) := iter x s1 in
         if negb continue then ret (true, false, s2)
         else ascend_loop rec its cs start stop includeStart iter idx true s2)
      σ =
    (Ok (hit',
         (scan stop iter (k :: flat_map (segment es its) idx) s1).1,
         (scan stop iter (k :: flat_map (segment es its) idx) s1).2), σ))
    as Htail.
  { intros hit1 s1. rewrite (bind_bounds_Some _ _ _ _ Hk).
    assert (negb includeStart && negb hit1 && bound_not_less start k = false)
      as ->.
    { destruct Hincl as [->| ->]; [done|]. simpl. apply andb_false_r. }
    cbn [scan]. destruct (not_less_bound k stop); [by exists true|].
    destruct (iter k s1) as [continue s2]. destruct continue; simpl.
    - apply IH. intros j Hj. apply Hidx. by right.
    - by exists true. }
  assert (flat_map (segment es its) (i :: idx)
          = default [] (es !! i) ++ k :: flat_map (segment es its) idx) as ->.
  { cbn [flat_map]. unfold segment at 1. rewrite Hk. by rewrite <- app_assoc. }
  cbn [ascend_loop]. rewrite scan_app.
  destruct (decide (0 < length cs)) as [Hcs|Hcs].
  - destruct (lookup_lt_is_Some_2 cs i (Hic Hcs)) as [c Hc].
    destruct (Forall2_lookup_l _ _ _ _ _ Hrec Hc) as (E & HE & Hok).
    rewrite HE. simpl default.
    rewrite bind_assoc, (bind_bounds_Some _ _ _ _ Hc).
    destruct (Hok hit s) as [hit1 Hrun].
    rewrite (bind_ok _ _ _ _ _ Hrun).
    destruct (scan stop iter E s) as [ok s1]. destruct ok; simpl.
    + apply Htail.
    + by exists hit1.
  - assert (cs = []) as -> by (destruct cs; [done|simpl in Hcs; lia]).
    apply Forall2_nil_inv_l in Hrec as ->. simpl default.
    rewrite bind_ret. simpl. apply Htail.
Qed.
Lemma shaped_children its (ts : list (tree A)) :
  shaped (Tree its ts) →
  (ts = [] ∨ length ts = S (length its)) ∧ Forall shaped ts.
Proof.
  cbn [shaped]. intros [Hshape Hall]. split; [done|].
  clear Hshape. induction ts as [|T ts IH]; [done|].
  destruct Hall as [HT Hall]. constructor; auto.
Qed.

Lemma tree_of_Some fuel ns l T :
  tree_of (S fuel) ns l = Some T →
  ∃ nd ts,
    ns !! l = Some nd ∧ T = Tree (n_items nd) ts
    ∧ Forall2 (λ c T', tree_of fuel ns c = Some T') (n_children nd) ts.
Proof.
  cbn [tree_of]. destruct (ns !! l) as [nd|]; [|done].
  destruct (mapM (tree_of fuel ns) (n_children nd)) as [ts|] eqn:Ets; [|done].
  intros [= <-]. exists nd, ts. split_and!; [done|done|].
  by apply mapM_Some.
Qed.

Lemma tree_of_mono fuel : ∀ ns l T fuel',
  tree_of fuel ns l = Some T → fuel ≤ fuel' → tree_of fuel' ns l = Some T.
Proof.
  induction fuel as [|fuel IH]; intros ns l T fuel' HT Hle; [done|].
  destruct fuel' as [|fuel']; [lia|].
  apply tree_of_Some in HT as (nd & ts & Hl & -> & Hch).
  cbn [tree_of]. rewrite Hl.
  assert (mapM (tree_of fuel' ns) (n_children nd) = Some ts) as ->; [|done].
  apply mapM_Some. eapply Forall2_impl; [exact Hch|].
  intros c T' HT'. apply (IH ns c T' fuel' HT'). lia.
Qed.

Lemma iterate_ascend_spec σ start stop includeStart iter :
  (includeStart = true ∨ start = None) →
  ∀ fuel l T,
    tree_of fuel (nodes σ) l = Some T → shaped T → ascending (elements T) →
    rec_ok (λ c hit s,
              iterate fuel c ascend start stop includeStart hit iter s)
      σ stop iter l (from_bound start (elements T)).
Proof.
  intros Hincl. induction fuel as [|fuel IH]; intros l T HT Hsh Hasc; [done|].
  apply tree_of_Some in HT as (nd & ts & Hl & -> & Hch).
  apply shaped_children in Hsh as [Hshape Hall]. cbn [elements] in Hasc.
  set (its := n_items nd) in *. set (cs := n_children nd) in *.
  set (rec := λ c hit s,
         iterate fuel c ascend start stop includeStart hit iter s).
  set (es := map (λ T', from_bound start (elements T')) ts).
  pose proof (Forall2_length _ _ _ Hch) as Hlen.
  assert (Forall2 (rec_ok rec σ stop iter) cs es) as Hrec.
  { assert (Forall (λ T', ascending (elements T')) ts) as Hasc'.
    { rewrite Forall_forall. intros T' HT'.
      apply (ascending_weave_elem (map elements ts) its); [done|].
      apply list_elem_of_In, in_map, list_elem_of_In, HT'. }
    unfold es. clear -IH Hch Hall Hasc'.
    induction Hch as [|c T' cs ts Hc Hch IHch]; [constructor|].
    apply Forall_cons in Hall as [? ?]. apply Forall_cons in Hasc' as [? ?].
    constructor; [by apply IH|by apply IHch]. }
  assert (es = [] ∨ length es = S (length its)) as Hshape'.
  { unfold es. rewrite length_map. destruct Hshape as [->|?]; auto. }
  set (index := match start with
                | Some st => (find st its).1
                | None => 0
                end).
  assert (index ≤ length its) as Hindex.
  { unfold index. destruct start; [apply find_index_le|lia]. }
  assert (from_bound start (weave (map elements ts) its)
          = flat_map (segment es its) (seq index (length its - index))
            ++ default [] (es !! length its)) as Hlist.
  { rewrite <- weave_segments by (done || lia).
    unfold es, index. destruct start as [a|]; simpl.
    - pose proof (ascending_weave_seps _ _ Hasc) as Hits.
      destruct (find_index_splits a its Hits) as [Hlo Hat].
      rewrite <- (map_map elements (drop_below a) ts).
      apply drop_below_weave; try done.
      rewrite length_map. destruct Hshape as [->|?]; auto.
    - reflexivity. }
  intros hit s. cbn [elements]. fold its. rewrite Hlist, scan_app.
  cbn [iterate]. rewrite (bind_get_node _ _ _ _ Hl). fold its cs rec index.
  destruct (ascend_loop_spec rec σ its cs es start stop includeStart iter
              Hincl Hrec (seq index (length its - index))) with (hit := hit)
    (s := s) as [hit1 Hloop].
  { intros i Hi. apply elem_of_seq in Hi. split; [lia|]. intros Hcs.
    destruct Hshape as [->|?]; [|lia]. simpl in Hlen. lia. }
  unfold ascend. rewrite (bind_ok _ _ _ _ _ Hloop).
  destruct (scan stop iter _ s) as [ok s1]. destruct ok; simpl.
  2:{ by exists hit1. }
  destruct (decide (0 < length cs)) as [Hcs|Hcs].
  - destruct (lookup_lt_is_Some_2 cs (length cs - 1)) as [c Hc]; [lia|].
    destruct (Forall2_lookup_l _ _ _ _ _ Hrec Hc) as (E & HE & Hok).
    assert (length cs - 1 = length its) as Hlast.
    { destruct Hshape as [->|?]; [simpl in Hlen; lia|lia]. }
    rewrite Hlast in HE. rewrite HE. simpl.
    rewrite (bind_bounds_Some _ _ _ _ Hc).
    destruct (Hok hit1 s1) as [hit2 Hrun].
    rewrite (bind_ok _ _ _ _ _ Hrun).
    exists hit2. by destruct (scan stop iter E s1) as [[] ?].
  - assert (cs = []) as Hnil by (destruct cs; [done|simpl in Hcs; lia]).
    rewrite Hnil in Hrec. apply Forall2_nil_inv_l in Hrec. rewrite Hrec.
    simpl. by exists hit1.
Qed.
End iterate_spec.

Lemma visit_collect {A : Type} (l : list A) : ∀ s, visit collect l s = s ++ l.
Proof.
  induction l as [|x l IH]; intros s; simpl; [by rewrite app_nil_r|].
  by rewrite IH, <- app_assoc.
Qed.

(** ** What [removeMax] returns *)

Section remove_max.
Context {A : Type} `{Item A}.
Implicit Types (σ : heap A) (n : loc).

Lemma bind_Ok_inv {R R'} (m : M A R) (k : R → M A R') σ v σ' :
  bind m k σ = (Ok v, σ') →
  ∃ x σ1, m σ = (Ok x, σ1) ∧ k x σ1 = (Ok v, σ').
Proof. unfold bind. destruct (m σ) as [[x|f|] σ1]; [eauto|done|done]. Qed.

(** [remove] with [removeMax] returns an element whenever it returns: the
    assignment [n.items[i] = child.remove(nil, minItems, removeMax)]
    stores no nil. *)
Lemma remove_max_not_nil : ∀ fuel n (item : option A) minItems σ v σ',
  remove fuel n item minItems removeMax σ = (Ok v, σ') → is_Some v.
Proof.
  induction fuel as [|fuel IH]; intros n item minItems σ v σ' Hrun; [done|].
  cbn [remove] in Hrun. unfold removeMax in Hrun. cbv iota in Hrun.
  apply bind_Ok_inv in Hrun as (sw & σ1 & Hsw & Hk).
  apply bind_Ok_inv in Hsw as (cs & σ2 & _ & Hsw).
  destruct (decide (length cs = 0)).
  - apply bind_Ok_inv in Hsw as (its & σ3 & _ & Hsw).
    apply bind_Ok_inv in Hsw as (p & σ4 & _ & Hsw).
    apply bind_Ok_inv in Hsw as (u & σ5 & _ & Hsw).
    injection Hsw as <- <-. injection Hk as <- <-. by eexists.
  - apply bind_Ok_inv in Hsw as (its & σ3 & _ & Hsw).
    injection Hsw as <- <-.
    apply bind_Ok_inv in Hk as (cs' & σ4 & _ & Hk).
    apply bind_Ok_inv in Hk as (c & σ5 & _ & Hk).
    apply bind_Ok_inv in Hk as (cits & σ6 & _ & Hk).
    destruct (decide (Z.of_nat (length cits) ≤ minItems)%Z).
    + unfold growChildAndRemove_body in Hk.
      apply bind_Ok_inv in Hk as (rich & σ7 & _ & Hk).
      apply bind_Ok_inv in Hk as (u & σ8 & _ & Hk).
      by eapply IH.
    + apply bind_Ok_inv in Hk as (child & σ7 & _ & Hk).
      by eapply IH.
Qed.
End remove_max.

(** ** Sequences of operations from the empty tree *)

Section exec_tree.
Context {A : Type} `{Item A}.
Implicit Types (σ : heap A) (t : treeid) (n : loc) (nd : node A).

Lemma bind_set_root {R'} t tr (r : option loc) (k : unit → M A R') σ :
  trees σ !! t = Some tr →
  bind (set_root t r) k σ =
    k () (with_tree σ t (mkBTree (t_degree tr) (t_length tr) r (t_cow tr))).
Proof.
  intros E. unfold set_root. by rewrite bind_assoc, (bind_get_tree _ _ _ _ E).
Qed.

Lemma bind_add_length {R'} t tr (d : Z) (k : unit → M A R') σ :
  trees σ !! t = Some tr →
  bind (add_length t d) k σ =
    k () (with_tree σ t (mkBTree (t_degree tr) (int_wrap (t_length tr + d))
                           (t_root tr) (t_cow tr))).
Proof.
  intros E. unfold add_length, set_length.
  rewrite bind_assoc, (bind_get_tree _ _ _ _ E).
  by rewrite bind_assoc, (bind_get_tree _ _ _ _ E).
Qed.

Lemma with_tree_same σ t tr : trees σ !! t = Some tr → with_tree σ t tr = σ.
Proof.
  intros E. destruct σ as [ns fs cs ts]. unfold with_tree. simpl in *.
  f_equal. by apply list_insert_id.
Qed.

Lemma with_tree_lookup σ t tr :
  t < length (trees σ) → trees (with_tree σ t tr) !! t = Some tr.
Proof. intros Ht. simpl. by apply list_lookup_insert_eq. Qed.

Lemma mutableFor_owned σ n nd (cow : option cowid) :
  nodes σ !! n = Some nd → n_cow nd = cow → mutableFor n cow σ = (Ok n, σ).
Proof.
  intros Hn Hc. unfold mutableFor. rewrite (bind_get_cow _ _ _ _ Hn).
  by rewrite decide_True.
Qed.

(** [insert] on a leaf that holds an element equal to [item]. *)
Lemma insert_found σ n nd (item : A) maxItems fuel i :
  nodes σ !! n = Some nd →
  find item (n_items nd) = (i, true) →
  insert (S fuel) n item maxItems σ =
    match n_items nd !! i with
    | Some out =>
        (Ok (Some out),
         with_node σ n (mkNode (<[i := item]> (n_items nd)) (n_children nd)
                          (n_cow nd)))
    | None => (Panic IndexOutOfRange, σ)
    end.
Proof.
  intros Hn Hf. cbn [insert]. rewrite (bind_get_items _ _ _ _ Hn), Hf.
  cbn beta iota.
  destruct (n_items nd !! i) as [out|] eqn:Ei; [|done].
  simpl bounds. rewrite bind_ret. unfold store_item.
  rewrite !bind_assoc, (bind_get_items _ _ _ _ Hn).
  rewrite decide_True by (by eapply lookup_lt_Some).
  by rewrite (bind_set_items _ _ _ _ _ Hn).
Qed.

Lemma bind_find_item {R'} item its (k : nat * bool → M A R') σ :
  bind (find_item item its) k σ =
    match find_item_pure item its with
    | Ok r => k r σ
    | Panic f => (Panic f, σ)
    | OutOfFuel => (OutOfFuel, σ)
    end.
Proof.
  unfold find_item, find_item_pure. destruct item; [done|].
  by destruct (decide (length its = 0)).
Qed.

(** [remove] on a leaf. *)
Lemma remove_leaf_eq σ n nd (item : option A) minItems typ fuel :
  nodes σ !! n = Some nd →
  n_children nd = [] →
  remove (S fuel) n item minItems typ σ =
    let take (o : option (A * list A)) :=
      match o with
      | Some p => (Ok (Some p.1), with_node σ n (mkNode p.2 [] (n_cow nd)))
      | None => (Panic IndexOutOfRange, σ)
      end in
    match typ with
    | 2%Z => take (pop (n_items nd))
    | 1%Z => take (removeAt 0 (n_items nd))
    | 0%Z =>
        match find_item_pure item (n_items nd) with
        | Ok r =>
            if r.2 : bool then take (removeAt r.1 (n_items nd))
            else (Ok None, σ)
        | Panic f => (Panic f, σ)
        | OutOfFuel => (OutOfFuel, σ)
        end
    | _ => (Panic InvalidType, σ)
    end.
Proof.
  intros Hn Hcs. cbn [remove]. cbn zeta.
  destruct typ as [|p|p]; [| |done].
  - mstep. rewrite bind_assoc, bind_find_item.
    destruct (find_item_pure item (n_items nd)) as [r| |]; [|done|done].
    mstep. rewrite Hcs. simpl. destruct r.2; [|by mstep].
    mstep. rewrite bind_assoc.
    destruct (removeAt r.1 (n_items nd)) as [q|]; [|done].
    simpl bounds. do 3 mstep. by rewrite Hcs.
  - destruct p as [p|p|]; [done| |].
    + destruct p; try done. mstep. rewrite Hcs. simpl. mstep.
      rewrite bind_assoc.
      destruct (pop (n_items nd)) as [q|]; [|done].
      simpl bounds. do 3 mstep. by rewrite Hcs.
    + mstep. rewrite Hcs. simpl. mstep. rewrite bind_assoc.
      destruct (removeAt 0 (n_items nd)) as [q|]; [|done].
      simpl bounds. do 3 mstep. by rewrite Hcs.
Qed.
End exec_tree.

Section sequences.
Context {A : Type} `{Item A}.
Implicit Types (σ : heap A) (t : treeid) (n : loc) (nd : node A).

Lemma small_tidy σ t d : small σ t d → tidy σ t d.
Proof.
  intros (tr & Ht & Hd & Hroot). exists tr. split_and!; [done..|].
  destruct (t_root tr) as [r|]; [|done].
  destruct Hroot as (nd & Hn & Hcs & Hlen & _). exists nd.
  split_and!; [done..|].
  destruct (n_items nd) as [|x [|y l]]; simpl in *; [done| |lia].
  split; [constructor|done].
Qed.

Lemma New_small d σ0 :
  (1 < d)%Z →
  ∃ σ, New d σ0 = (Ok (length (trees σ0)), σ) ∧ small σ (length (trees σ0)) d.
Proof.
  intros Hd. unfold New, DefaultFreelistSize.
  rewrite (bind_ok _ _ _ _ _ (NewFreeList_spec σ0 32 ltac:(lia))).
  unfold NewWithFreelist. rewrite decide_False by lia.
  unfold bind, alloc_context, alloc_tree. simpl.
  eexists. split; [done|].
  eexists. split; [by apply list_lookup_middle|].
  split; [done|]. simpl. eexists _, _. split_and!; [|by apply list_lookup_middle|done].
  by apply list_lookup_middle.
Qed.

(** A second item goes into a leaf of one item on the side that [find]
    tells. *)
Lemma insert_second_ascending (x : A) (its : list A) :
  length its ≤ 1 →
  (find x its).2 = false →
  ascending (take (find x its).1 its ++ x :: drop (find x its).1 its).
Proof.
  intros Hlen. destruct its as [|y [|z l]]; simpl in Hlen; [| |lia].
  - intros _. simpl. split; [constructor|done].
  - unfold find, Search. simpl. unfold find_pred. simpl.
    destruct (Less x y) eqn:Hxy; simpl.
    + intros _. split; [by repeat constructor|]. split; [constructor|done].
    + destruct (Less y x) eqn:Hyx; simpl; [|done].
      intros _. split; [by repeat constructor|]. split; [constructor|done].
Qed.

Lemma maxItems_cases (tr : BTree) :
  (2 ≤ t_degree tr < 2 ^ 63)%Z →
  (3 ≤ maxItems tr)%Z ∨ (int_wrap (maxItems tr `quot` 2) < 0)%Z.
Proof.
  intros Hd. unfold maxItems, int_wrap.
  destruct (decide (t_degree tr < 2 ^ 62)%Z).
  - left. rewrite (Z.mod_small (t_degree tr * 2 + 2 ^ 63)) by lia.
    rewrite Z.mod_small by lia. lia.
  - destruct (decide (t_degree tr = 2 ^ 62)%Z) as [->|].
    + left. vm_compute. discriminate.
    + right. Z.div_mod_to_equations. Z.quot_rem_to_equations. lia.
Qed.
Lemma cow_newNode_fresh σ (c : cowid) f fl :
  cows σ !! c = Some (mkCow (Some f)) →
  freelists σ !! f = Some fl → fl_freelist fl = [] →
  cow_newNode c σ =
    (Ok (length (nodes σ)),
     mkHeap (nodes σ ++ [mkNode [] [] (Some c)]) (freelists σ) (cows σ)
       (trees σ)).
Proof.
  intros Hc Hf Hfl. unfold cow_newNode, context_freelist.
  rewrite bind_assoc. unfold bind at 1, get_context. rewrite Hc. simpl.
  rewrite bind_ret.
  assert (FreeList_newNode f σ = alloc_node σ) as Hnew.
  { rewrite FreeList_newNode_eq, Hf, Hfl. done. }
  rewrite (bind_ok _ _ _ _ _ Hnew).
  erewrite bind_set_cow; [|simpl; by apply list_lookup_middle].
  unfold ret, with_node. simpl. f_equal. f_equal.
  by rewrite insert_app_r_alt, Nat.sub_diag by done.
Qed.

Lemma ReplaceOrInsert_after σ t d fuel (item : option A) out σ' :
  (2 ≤ d < 2 ^ 63)%Z →
  small σ t d →
  ReplaceOrInsert fuel t item σ = (out, σ') →
  after fuel out σ' t d.
Proof.
  intros Hd Hs. pose proof Hs as (tr & Ht & Hdeg & Hroot).
  unfold ReplaceOrInsert. destruct item as [x|].
  2:{ intros [= <- <-]. by apply small_tidy. }
  pose proof (lookup_lt_Some _ _ _ Ht) as Htlt.
  mstep. destruct (t_root tr) as [r|] eqn:Er.
  - destruct Hroot as (nd & Hn & Hcs & Hlen & Hcow).
    rewrite (bind_ok _ _ _ _ _ (mutableFor_owned σ r nd _ Hn Hcow)).
    erewrite bind_set_root by eassumption. rewrite <- Er.
    rewrite (with_tree_same σ t) by (by destruct tr).
    mstep. destruct (decide (maxItems tr ≤ Z.of_nat (length (n_items nd)))%Z)
      as [Hfull|Hfree].
    { destruct (maxItems_cases tr) as [?|Hneg]; [lia|lia|].
      unfold split. mstep. unfold index_of.
      rewrite decide_False by lia. simpl bounds. rewrite !bind_assoc.
      intros [= <- <-]. by apply small_tidy. }
    mstep. destruct fuel as [|fuel].
    { intros [= <- <-]. split; [by apply small_tidy|done]. }
    destruct (find x (n_items nd)) as [i found] eqn:Ef. destruct found.
    + unfold bind at 1. rewrite (insert_found σ r nd x _ fuel i Hn Ef).
      destruct (n_items nd !! i) as [v|].
      2:{ intros [= <- <-]. by apply small_tidy. }
      cbn beta iota.
      rewrite decide_False by done. mstep. intros [= <- <-].
      exists tr. split_and!; [done|done|]. rewrite Er.
      eexists. split; [apply with_node_lookup; by eapply lookup_lt_Some|].
      simpl. by rewrite length_insert.
    + unfold bind at 1.
      rewrite (insert_leaf_absent σ r nd x _ fuel Hn Hcs)
        by (by rewrite Ef).
      intros [= <- <-]. exists tr. split_and!; [done|done|]. rewrite Er.
      eexists. split; [apply with_node_lookup; by eapply lookup_lt_Some|].
      simpl. split; [done|].
      apply insert_second_ascending; [done|by rewrite Ef].
  - destruct Hroot as (f & fl & Hc & Hf & Hfl).
    rewrite (bind_ok _ _ _ _ _ (cow_newNode_fresh σ _ f fl Hc Hf Hfl)).
    erewrite bind_set_root by (simpl; eassumption).
    set (σ1 := with_tree _ _ _).
    assert (nodes σ1 !! length (nodes σ)
            = Some (mkNode [] [] (Some (t_cow tr)))) as Hn1.
    { simpl. by apply list_lookup_middle. }
    do 2 mstep.
    erewrite bind_add_length
      by (simpl; by apply list_lookup_insert_eq).
    unfold ret. intros [= <- <-].
    eexists. split.
    { simpl. apply list_lookup_insert_eq. by rewrite length_insert. }
    split; [done|]. simpl. eexists. split.
    { apply list_lookup_insert_eq. rewrite length_app. simpl. lia. }
    done.
Qed.

Lemma removeAt_length {T} i (l : list T) p :
  removeAt i l = Some p → S (length p.2) = length l.
Proof.
  unfold removeAt. destruct (l !! i) eqn:E; [|done]. intros [= <-]. simpl.
  apply lookup_lt_Some in E.
  rewrite length_app, length_take, length_drop. lia.
Qed.

Lemma pop_length {T} (l : list T) p :
  pop l = Some p → S (length p.2) = length l.
Proof.
  unfold pop. destruct (length l) as [|m] eqn:El; [done|].
  destruct (l !! m); [|done]. intros [= <-]. simpl.
  rewrite length_take. lia.
Qed.

Lemma with_node_same σ n nd : nodes σ !! n = Some nd → with_node σ n nd = σ.
Proof.
  intros E. destruct σ as [ns fs cs ts]. unfold with_node. simpl in *.
  f_equal. by apply list_insert_id.
Qed.

Lemma remove_leaf_shape σ n nd (item : option A) minItems typ fuel out σ1 :
  nodes σ !! n = Some nd →
  n_children nd = [] →
  remove (S fuel) n item minItems typ σ = (out, σ1) →
  out ≠ OutOfFuel
  ∧ ∃ its', σ1 = with_node σ n (mkNode its' [] (n_cow nd))
            ∧ length its' ≤ length (n_items nd).
Proof.
  intros Hn Hcs. rewrite (remove_leaf_eq σ n nd item _ typ fuel Hn Hcs).
  cbn zeta.
  assert (∀ o σ2, o ≠ OutOfFuel → (o, σ) = (out, σ2) →
    out ≠ OutOfFuel
    ∧ ∃ its', σ2 = with_node σ n (mkNode its' [] (n_cow nd))
              ∧ length its' ≤ length (n_items nd)) as Hsame.
  { intros o σ2 Ho [= <- <-]. split; [done|].
    exists (n_items nd). split; [|done].
    symmetry. apply with_node_same. rewrite Hn. f_equal.
    destruct nd. simpl in *. by subst. }
  assert (∀ o : option (A * list A),
    (∀ p, o = Some p → S (length p.2) = length (n_items nd)) →
    match o with
    | Some p => (Ok (Some p.1), with_node σ n (mkNode p.2 [] (n_cow nd)))
    | None => (Panic IndexOutOfRange, σ)
    end = (out, σ1) →
    out ≠ OutOfFuel
    ∧ ∃ its', σ1 = with_node σ n (mkNode its' [] (n_cow nd))
              ∧ length its' ≤ length (n_items nd)) as Htake.
  { intros [p|] Hp; [|by apply Hsame]. intros [= <- <-]. split; [done|].
    exists p.2. split; [done|]. specialize (Hp p eq_refl). lia. }
  destruct typ as [|p|p]; [| |by apply Hsame].
  - assert (find_item_pure item (n_items nd) ≠ OutOfFuel) as Hfind.
    { unfold find_item_pure. destruct item; [done|]. by destruct (decide _). }
    destruct (find_item_pure item (n_items nd)) as [r0| |];
      [|by apply Hsame|done].
    destruct r0.2; [|by apply Hsame].
    apply Htake. intros p. apply removeAt_length.
  - destruct p as [p|p|]; [by apply Hsame| |].
    + destruct p; try (by apply Hsame). apply Htake. intros p.
      apply pop_length.
    + apply Htake. intros p. apply removeAt_length.
Qed.

Lemma deleteItem_after σ t d fuel item typ out σ' :
  small σ t d →
  deleteItem fuel t item typ σ = (out, σ') →
  small σ' t d ∧ (out = OutOfFuel → fuel = 0).
Proof.
  intros Hs. pose proof Hs as (tr & Ht & Hdeg & Hroot). unfold deleteItem.
  pose proof (lookup_lt_Some _ _ _ Ht) as Htlt.
  mstep. destruct (t_root tr) as [r|] eqn:Er.
  2:{ by intros [= <- <-]. }
  destruct Hroot as (nd & Hn & Hcs & Hlen & Hcow).
  mstep. destruct (decide (length (n_items nd) = 0)).
  { by intros [= <- <-]. }
  rewrite (bind_ok _ _ _ _ _ (mutableFor_owned σ r nd _ Hn Hcow)).
  erewrite bind_set_root by eassumption. rewrite <- Er.
  rewrite (with_tree_same σ t) by (by destruct tr).
  destruct fuel as [|fuel]; [by intros [= <- <-]|].
  destruct (remove (S fuel) r item (minItems tr) typ σ) as [o σ1] eqn:Erem.
  apply remove_leaf_shape with (nd := nd) in Erem as Hshape; [|done|done].
  destruct Hshape as (Ho & its' & -> & Hle).
  assert (small (with_node σ r (mkNode its' [] (n_cow nd))) t d) as Hsmall.
  { exists tr. split_and!; [done|done|]. rewrite Er. eexists.
    split; [apply with_node_lookup; by eapply lookup_lt_Some|]. simpl.
    split_and!; [done|lia|done]. }
  destruct o as [v|f|]; [|unfold bind; rewrite Erem; by intros [= <- <-]|done].
  rewrite (bind_ok _ _ _ _ _ Erem).
  do 2 mstep. rewrite decide_False by (simpl; lia). mstep.
  destruct v as [v|].
  - erewrite bind_add_length by (simpl; exact Ht).
    unfold ret. intros [= <- <-]. split; [|done].
    eexists. split; [simpl; by apply list_lookup_insert_eq|].
    split; [done|]. simpl. rewrite Er. eexists.
    split; [apply list_lookup_insert_eq; by eapply lookup_lt_Some|]. simpl.
    split_and!; [done|lia|done].
  - mstep. by intros [= <- <-].
Qed.

Lemma small_after {R} fuel (out : outcome R) σ t d :
  small σ t d → (out = OutOfFuel → fuel = 0) → after fuel out σ t d.
Proof.
  intros Hs Hfuel. destruct out; simpl; [done|by apply small_tidy|].
  split; [by apply small_tidy|by apply Hfuel].
Qed.

Lemma run_op_after σ t d fuel (o : op A) out σ' :
  (2 ≤ d < 2 ^ 63)%Z →
  small σ t d → run_op fuel t o σ = (out, σ') → after fuel out σ' t d.
Proof.
  intros Hd Hs. destruct o; cbv [run_op Delete DeleteMin DeleteMax].
  - by apply ReplaceOrInsert_after.
  - intros E. by eapply small_after; eapply deleteItem_after.
  - intros E. by eapply small_after; eapply deleteItem_after.
  - intros E. by eapply small_after; eapply deleteItem_after.
Qed.

Lemma run_ops_after fuel t d (ops : list (op A)) : ∀ σ out σ',
  (2 ≤ d < 2 ^ 63)%Z →
  small σ t d → run_ops fuel t ops σ = (out, σ') → after fuel out σ' t d.
Proof.
  induction ops as [|o ops IH]; intros σ out σ' Hd Hs; simpl.
  - by intros [= <- <-].
  - destruct (run_op fuel t o σ) as [u σ1] eqn:Eop.
    pose proof (run_op_after _ _ _ _ _ _ _ Hd Hs Eop) as Hafter.
    destruct u as [u|f|]; [|unfold bind; rewrite Eop; by intros [= <- <-]..].
    rewrite (bind_ok _ _ _ _ _ Eop). by apply IH.
Qed.

Lemma build_after d fuel (ops : list (op A)) σ0 :
  (2 ≤ d < 2 ^ 63)%Z →
  tidy (build d fuel ops σ0).2 (length (trees σ0)) d
  ∧ ((build d fuel ops σ0).1 = OutOfFuel → fuel = 0).
Proof.
  intros Hd. destruct (New_small d σ0) as (σ1 & HNew & Hs); [lia|].
  unfold build. rewrite (bind_ok _ _ _ _ _ HNew).
  destruct (run_ops fuel (length (trees σ0)) ops σ1) as [u σ2] eqn:Erun.
  pose proof (run_ops_after _ _ _ _ _ _ _ Hd Hs Erun) as Hafter.
  unfold bind. rewrite Erun. destruct u; simpl in *.
  - split; [by apply small_tidy|done].
  - done.
  - by destruct Hafter.
Qed.
End sequences.

Section ascend_all.
Context {A : Type} `{ItemOrder A}.
Implicit Types (σ : heap A) (T : tree A).

Lemma filter_unbounded (l : list A) : List.filter (in_range None None) l = l.
Proof. induction l as [|x l IH]; simpl; [done|]. by rewrite IH. Qed.

(** [Ascend] calls the iterator on the elements from left to right. *)
Lemma Ascend_visits_all {St : Type} σ (t : treeid) (tr : BTree) (r : loc) T
    (fuel0 : nat) (iter : ItemIterator (A:=A) (St:=St)) (s : St) :
  trees σ !! t = Some tr →
  t_root tr = Some r →
  tree_of fuel0 (nodes σ) r = Some T →
  shaped T →
  ascending (elements T) →
  ∀ fuel, fuel0 ≤ fuel →
    Ascend fuel t iter s σ = (Ok (visit iter (elements T) s), σ).
Proof.
  intros Ht Hr HT Hsh Hasc fuel Hfuel.
  unfold Ascend, traverse. rewrite (bind_get_tree _ _ _ _ Ht), Hr.
  pose proof (tree_of_mono _ _ _ _ fuel HT Hfuel) as HT'.
  destruct (iterate_ascend_spec σ None None false iter (or_intror eq_refl)
              fuel r T HT' Hsh Hasc false s) as [hit' Hrun].
  rewrite (bind_ok _ _ _ _ _ Hrun). unfold ret.
  pose proof (scan_within None None iter (elements T) s Hasc) as Hscan.
  rewrite filter_unbounded in Hscan. simpl in *. by rewrite Hscan.
Qed.
End ascend_all.

(** ** Deleting an element that is not there *)

Section delete_absent.
Context {A : Type} `{Item A}.
Implicit Types (σ : heap A) (t : treeid) (n : loc) (nd : node A).

(** The binary search stops behind an index at which the predicate is
    false, whatever the predicate. *)
Lemma Search_loop_behind f : ∀ fuel i j,
  i = 0 ∨ f (i - 1) = false →
  Search_loop fuel i j f = 0 ∨ f (Search_loop fuel i j f - 1) = false.
Proof.
  induction fuel as [|fuel IH]; intros i j Hi; simpl; [done|].
  destruct (decide (i < j)); [|done].
  destruct (f (Nat.div2 (i + j))) eqn:Hf; simpl.
  - by apply IH.
  - apply IH. right. by rewrite Nat.add_sub.
Qed.

Lemma find_absent (x : A) (its : list A) :
  forallb (differs x) its = true → (find x its).2 = false.
Proof.
  intros Hall. unfold find, Search.
  destruct (Search_loop_behind (find_pred x its) (length its) 0 (length its))
    as [E|E]; [by left|by rewrite E|].
  destruct (Search_loop _ _ _ _) as [|m]; [done|].
  simpl in E. rewrite Nat.sub_0_r in E. unfold find_pred in E.
  destruct (its !! m) as [y|] eqn:Hy; [|done].
  destruct (Less y x) eqn:Hyx; [done|]. exfalso.
  rewrite forallb_forall in Hall.
  specialize (Hall y (proj1 (list_elem_of_In _ _) (list_elem_of_lookup_2 _ _ _ Hy))).
  unfold differs in Hall. by rewrite E, Hyx in Hall.
Qed.

Lemma remove_quiet σ cow lo (x : A) : ∀ h fuel n,
  h ≤ fuel →
  quiet h (nodes σ) cow lo x n = true →
  remove fuel n (Some x) lo removeItem σ = (Ok None, σ).
Proof.
  induction h as [|h IH]; intros fuel n Hfuel Hq; [done|].
  destruct fuel as [|fuel]; [lia|]. simpl in Hq.
  destruct (nodes σ !! n) as [nd|] eqn:Hn; [|done].
  apply andb_prop in Hq as [Hq Hpath]. apply andb_prop in Hq as [Hcow Hall].
  apply bool_decide_eq_true in Hcow. apply find_absent in Hall.
  cbn [remove]. unfold removeItem. mstep. unfold find_item. mstep. mstep.
  destruct (find x (n_items nd)) as [i found] eqn:Ef. simpl in Hall.
  subst found. destruct (n_children nd) as [|c0 cs0] eqn:Hcs.
  { rewrite decide_True by done. simpl. by mstep. }
  rewrite decide_False by done. rewrite <- Hcs in *. mstep. simpl in Hpath.
  destruct (n_children nd !! i) as [c|] eqn:Hc; [|done].
  destruct (nodes σ !! c) as [cd|] eqn:Hcd; [|done].
  apply andb_prop in Hpath as [Hroom Hq]. apply bool_decide_eq_true in Hroom.
  do 3 mstep. rewrite decide_False by lia.
  assert (mutableChild n i σ = (Ok c, σ)) as Hmut.
  { unfold mutableChild. do 3 mstep.
    assert (n_cow cd = cow) as Hcow'.
    { destruct h as [|h']; [done|]. simpl in Hq. rewrite Hcd in Hq.
      apply andb_prop in Hq as [Hq _]. apply andb_prop in Hq as [Hq _].
      by apply bool_decide_eq_true in Hq. }
    rewrite (bind_ok _ _ _ _ _ (mutableFor_owned σ c cd _ Hcd
               (eq_trans Hcow' (eq_sym Hcow)))).
    mstep. rewrite decide_True by (by eapply lookup_lt_Some). do 2 mstep.
    unfold ret. f_equal. apply with_node_same. rewrite Hn. f_equal.
    rewrite list_insert_id by done. by destruct nd. }
  rewrite (bind_ok _ _ _ _ _ Hmut). apply IH; [lia|done].
Qed.
End delete_absent.

(** * The claims *)

(** C1 fails on the code: in a tree of degree 2 that holds [1], inserting
    [2] does not run to completion but panics with an index out of range
    (the leaf case of [insert] does not return). *)
Theorem second_insert_panics (fuel : nat) :
  (insert_two (S fuel) empty_heap).1 = Panic IndexOutOfRange.
Proof. reflexivity. Qed.

Section claim_leaf.
Context {A : Type} `{Item A}.
Implicit Types (σ : heap A) (n : loc) (nd : node A).

(** C2 fails on the code: for every leaf and every element that [find]
    does not report as present, [insert] puts the element at the index
    returned by [find] and then, instead of returning, goes on to
    [maybeSplitChild], which reads [n.children[i]] of the leaf and panics
    with an index out of range. *)
Theorem insert_into_leaf_reads_child σ n nd (item : A) (maxItems : Z)
    (fuel : nat) :
  nodes σ !! n = Some nd →
  n_children nd = [] →
  (find item (n_items nd)).2 = false →
  insert (S fuel) n item maxItems σ =
    (Panic IndexOutOfRange,
     with_node σ n
       (mkNode (take (find item (n_items nd)).1 (n_items nd)
                ++ item :: drop (find item (n_items nd)).1 (n_items nd))
          [] (n_cow nd))).
Proof. apply insert_leaf_absent. Qed.
End claim_leaf.

Lemma insert_into_leaf_reads_child_witness :
  let σ : heap Int :=
    mkHeap [mkNode [1%Z] [] (Some 0)] [mkFreeList [] 32] [mkCow (Some 0)]
      [mkBTree 2 1 (Some 0) 0] in
  insert 1 0 (2%Z : Int) 3 σ =
    (Panic IndexOutOfRange,
     with_node σ 0 (mkNode [1%Z; 2%Z] [] (Some 0))).
Proof.
  intros σ.
  exact (insert_into_leaf_reads_child σ 0 (mkNode [1%Z] [] (Some 0))
           (2%Z : Int) 3%Z 0 eq_refl eq_refl eq_refl).
Defined.

Section claim_invariant.
Context {A : Type} `{ItemOrder A}.
Implicit Types (σ : heap A) (T : tree A).

End claim_invariant.


(** C4 fails on the code: [ReplaceOrInsert] of an element that is not in
    the tree returns no nil; the call panics, and the count stays at 1
    although the leaf now holds both elements. *)
Theorem insert_absent_item_returns_nothing (fuel : nat) :
  let r := insert_two (S fuel) empty_heap in
  r.1 ≠ Ok None
  ∧ (Len 0 r.2).1 = Ok 1%Z
  ∧ (Get 1 0 (2%Z : Int) r.2).1 = Ok (Some 2%Z).
Proof. split_and!; [discriminate|reflexivity|reflexivity]. Qed.

Section claim_find.
Context {A : Type} `{ItemOrder A}.

(** C5, amended.  On a sorted, duplicate-free slice, let [n] be the first
    index with [item < l[n]] (the length if there is none).  When [n > 0]
    and [l[n-1]] is not less than [item], [find] returns the index [n-1]
    of that equal element and [true]; otherwise it returns the insertion
    index [n] and [false]. *)
Theorem find_index_and_flag (item : A) (l : list A) :
  ascending l →
  find item l =
    let n := first_above item l in
    if equal_before item l n then (n - 1, true) else (n, false).
Proof. apply find_first_above. Qed.
End claim_find.

(** The index that [find] returns for an element that is present is not
    the first index above it: C5 as stated fails on [[1; 3; 5]] and [3]. *)
Lemma find_index_is_not_first_above :
  ¬ (∀ (l : list Int) (item : Int),
       ascending l → (find item l).1 = first_above item l).
Proof.
  intros Hclaim.
  assert (ascending [1; 3; 5]%Z) as Hs by (simpl; repeat constructor).
  specialize (Hclaim [1; 3; 5]%Z 3%Z Hs). vm_compute in Hclaim. lia.
Qed.

Lemma find_index_and_flag_witness :
  ascending [1; 3; 5]%Z ∧ find (3%Z : Int) [1; 3; 5]%Z = (1, true).
Proof.
  assert (ascending [1; 3; 5]%Z) as Hs by (simpl; repeat constructor).
  split; [exact Hs|].
  exact (find_index_and_flag (3%Z : Int) [1; 3; 5]%Z Hs).
Defined.

Section claim_delete.
Context {A : Type} `{Item A}.
Implicit Types (σ : heap A) (t : treeid).

End claim_delete.



Section claim_range.
Context {A : Type} `{ItemOrder A} {St : Type}.
Implicit Types (σ : heap A) (T : tree A).

(** C7.  On a tree with a root, whose nodes are leaves or have one more
    child than items and whose elements from left to right are strictly
    increasing, [AscendRange(a, b, iterator)] calls the iterator on the
    stored elements [x] with [a ≤ x < b] and on no other, each once, in
    increasing order, up to the first call that returns false; it does
    not change the store.  (A nil bound does not bound.) *)
Theorem AscendRange_visits_range σ (t : treeid) (tr : BTree) (r : loc) T
    (fuel0 : nat) (a b : option A) (iter : ItemIterator (A:=A) (St:=St))
    (s : St) :
  trees σ !! t = Some tr →
  t_root tr = Some r →
  tree_of fuel0 (nodes σ) r = Some T →
  shaped T →
  ascending (elements T) →
  ∀ fuel, fuel0 ≤ fuel →
    AscendRange fuel t a b iter s σ =
      (Ok (visit iter (List.filter (in_range a b) (elements T)) s), σ).
Proof.
  intros Ht Hr HT Hsh Hasc fuel Hfuel.
  unfold AscendRange, traverse. rewrite (bind_get_tree _ _ _ _ Ht), Hr.
  pose proof (tree_of_mono _ _ _ _ fuel HT Hfuel) as HT'.
  destruct (iterate_ascend_spec σ a b true iter (or_introl eq_refl)
              fuel r T HT' Hsh Hasc false s) as [hit' Hrun].
  rewrite (bind_ok _ _ _ _ _ Hrun). unfold ret. simpl.
  by rewrite scan_within.
Qed.
End claim_range.

Lemma AscendRange_visits_range_witness :
  AscendRange 2 0 (Some 2%Z) (Some 3%Z) collect [] three_items
  = (Ok [2%Z], three_items).
Proof.
  pose (T := Tree [2%Z] [Tree [1%Z] []; Tree [3%Z] []] : tree Int).
  assert (shaped T) as Hsh by (simpl; intuition).
  assert (ascending (elements T)) as Hasc by (simpl; repeat constructor).
  exact (AscendRange_visits_range three_items 0 (mkBTree 2 3 (Some 2) 0) 2
           T 2 (Some 2%Z) (Some 3%Z) collect []
           eq_refl eq_refl eq_refl Hsh Hasc 2 (le_n 2)).
Defined.

Section claim_clone.
Context {A : Type} `{Item A}.
Implicit Types (σ : heap A) (t : treeid).

(** C8.  [Clone] copies no node: it only allocates two contexts and a
    handle that shares the root.  Afterwards the two handles are
    independent: whatever [ReplaceOrInsert], [Delete], [DeleteMin] or
    [DeleteMax] does through one of them, including when it panics, the
    count ([Len]) and the membership ([Get] of every key) seen through the
    other one stay as they were.  The store is assumed to be in order: the
    pool holds untagged nodes only, and every node of the tree carries the
    tag of a context that exists. *)
Theorem clone_handles_independent σ t (tr : BTree) cw (h : nat) :
  trees σ !! t = Some tr →
  cows σ !! t_cow tr = Some cw →
  (∀ f, cow_freelist cw = Some f → pool_clean σ f = true) →
  (∀ r, t_root tr = Some r →
     tagged_tree (length (cows σ)) (nodes σ) h r = true) →
  ∃ t2 σ1,
    Clone t σ = (Ok t2, σ1) ∧ t2 ≠ t ∧
    nodes σ1 = nodes σ ∧ freelists σ1 = freelists σ ∧
    (∃ tr1 tr2,
       trees σ1 !! t = Some tr1 ∧ trees σ1 !! t2 = Some tr2 ∧
       t_root tr1 = t_root tr ∧ t_root tr2 = t_root tr ∧
       t_length tr1 = t_length tr ∧ t_length tr2 = t_length tr ∧
       t_cow tr1 ≠ t_cow tr2) ∧
    (∀ fuel o,
       let σ2 := (run_op fuel t2 o σ1).2 in
       (Len t σ2).1 = (Len t σ1).1 ∧
       ∀ fuel' key, (Get fuel' t key σ2).1 = (Get fuel' t key σ1).1) ∧
    (∀ fuel o,
       let σ3 := (run_op fuel t o σ1).2 in
       (Len t2 σ3).1 = (Len t2 σ1).1 ∧
       ∀ fuel' key, (Get fuel' t2 key σ3).1 = (Get fuel' t2 key σ1).1).
Proof.
  intros Ht Hc Hclean Htag.
  pose proof (lookup_lt_Some _ _ _ Ht) as Hlt.
  set (σ1 := cloned σ t tr cw).
  set (t2 := length (trees σ)).
  set (c1 := length (cows σ)).
  set (c2 := length (cows σ ++ [cw])).
  set (tr1 := mkBTree (t_degree tr) (t_length tr) (t_root tr) c1).
  set (tr2 := mkBTree (t_degree tr) (t_length tr) (t_root tr) c2).
  assert (c2 = S c1) as Hc12 by (unfold c2, c1; rewrite length_app; simpl; lia).
  assert (trees σ1 !! t = Some tr1) as Htr1.
  { simpl. rewrite lookup_app_l by (by rewrite length_insert).
    by apply list_lookup_insert_eq. }
  assert (trees σ1 !! t2 = Some tr2) as Htr2.
  { simpl. apply list_lookup_middle. by rewrite length_insert. }
  assert (cows σ1 !! c1 = Some cw) as Hc1.
  { simpl. rewrite lookup_app_l by (rewrite length_app; simpl; lia).
    by apply list_lookup_middle. }
  assert (cows σ1 !! c2 = Some cw) as Hc2.
  { simpl. by apply list_lookup_middle. }
  assert (t2 ≠ t) as Hne by (unfold t2; lia).
  exists t2, σ1. split_and!; [by apply Clone_eq|done|done|done| | |].
  - exists tr1, tr2. split_and!; try done. simpl. lia.
  - intros fuel o σ2.
    destruct (clone_pool_ok σ t tr cw c2 t2 tr2 Hclean Hc2 Htr2 eq_refl)
      as [f0 Hp].
    destruct (safe_run_op c2 t2 f0 [] fuel o σ1 Hp (Forall_nil_2 _))
      as [He _].
    destruct (reads_kept c2 t2 t f0 σ1 σ2 tr1 h Hp He) as (Hget & Hlen & Htr');
      [done|done|].
    split; [done|]. intros fuel' key.
    rewrite (Get_eq _ _ _ _ _ Htr'), (Get_eq _ _ _ _ _ Htr1).
    destruct (t_root tr1) as [r|] eqn:Er; [|done].
    apply (Hget c1 r); [lia|done|]. by apply Htag.
  - intros fuel o σ3.
    destruct (clone_pool_ok σ t tr cw c1 t tr1 Hclean Hc1 Htr1 eq_refl)
      as [f0 Hp].
    destruct (safe_run_op c1 t f0 [] fuel o σ1 Hp (Forall_nil_2 _))
      as [He _].
    destruct (reads_kept c1 t t2 f0 σ1 σ3 tr2 h Hp He) as (Hget & Hlen & Htr');
      [done|done|].
    split; [done|]. intros fuel' key.
    rewrite (Get_eq _ _ _ _ _ Htr'), (Get_eq _ _ _ _ _ Htr2).
    destruct (t_root tr2) as [r|] eqn:Er; [|done].
    apply (Hget c1 r); [lia|done|]. by apply Htag.
Qed.
End claim_clone.

Lemma clone_handles_independent_witness :
  ∃ t2 σ1,
    Clone 0 three_items = (Ok t2, σ1) ∧ t2 ≠ 0 ∧
    nodes σ1 = nodes three_items ∧ freelists σ1 = freelists three_items ∧
    (∃ tr1 tr2,
       trees σ1 !! 0 = Some tr1 ∧ trees σ1 !! t2 = Some tr2 ∧
       t_root tr1 = Some 2 ∧ t_root tr2 = Some 2 ∧
       t_length tr1 = 3%Z ∧ t_length tr2 = 3%Z ∧
       t_cow tr1 ≠ t_cow tr2) ∧
    (∀ fuel o,
       let σ2 := (run_op fuel t2 o σ1).2 in
       (Len 0 σ2).1 = (Len 0 σ1).1 ∧
       ∀ fuel' key, (Get fuel' 0 key σ2).1 = (Get fuel' 0 key σ1).1) ∧
    (∀ fuel o,
       let σ3 := (run_op fuel 0 o σ1).2 in
       (Len t2 σ3).1 = (Len t2 σ1).1 ∧
       ∀ fuel' key, (Get fuel' t2 key σ3).1 = (Get fuel' t2 key σ1).1).
Proof.
  apply (clone_handles_independent three_items 0 (mkBTree 2 3 (Some 2) 0)
           (mkCow (Some 0)) 2).
  - reflexivity.
  - reflexivity.
  - intros f [= <-]. reflexivity.
  - intros r [= <-]. reflexivity.
Defined.

Section claim_pool.
Context {A : Type}.
Implicit Types (σ : heap A).

(** C9.  A pool that holds no more nodes than its capacity never grows
    beyond it, whatever sequence of nodes is released: the i-th release
    returns true exactly when the pool, at that moment, is below its
    capacity, and the pool ends up with the first [cap - size] released
    nodes appended.  [NewFreeList c] creates such a pool, empty and of
    capacity [c]. *)
Theorem pool_never_exceeds_capacity σ (f : flid) (fl : FreeList)
    (ns : list loc) :
  freelists σ !! f = Some fl →
  length (fl_freelist fl) ≤ fl_cap fl →
  ∃ σ' fl',
    release_all f ns σ =
      (Ok (map (accepted (length (fl_freelist fl)) (fl_cap fl))
             (seq 0 (length ns))), σ')
    ∧ freelists σ' !! f = Some fl'
    ∧ fl_cap fl' = fl_cap fl
    ∧ fl_freelist fl' =
        fl_freelist fl ++ take (fl_cap fl - length (fl_freelist fl)) ns
    ∧ length (fl_freelist fl') ≤ fl_cap fl.
Proof.
  intros Hf Hle.
  destruct (release_all_spec f ns σ fl Hf Hle)
    as (σ' & fl' & Hrun & Hf' & Hcap & Hlist & _).
  exists σ', fl'. split_and!; try done.
  rewrite Hlist, length_app, length_take. lia.
Qed.
End claim_pool.

(** A pool of capacity 2 takes the first two of three released nodes. *)
Lemma pool_never_exceeds_capacity_witness :
  let σ : heap Int := mkHeap [] [mkFreeList [] 2] [] [] in
  ∃ σ' fl',
    release_all 0 [0; 1; 2] σ = (Ok [true; true; false], σ')
    ∧ freelists σ' !! 0 = Some fl'
    ∧ fl_cap fl' = 2
    ∧ fl_freelist fl' = [0; 1]
    ∧ length (fl_freelist fl') ≤ 2.
Proof.
  intros σ.
  apply (pool_never_exceeds_capacity σ 0 (mkFreeList [] 2) [0; 1; 2]);
    [reflexivity|simpl; lia].
Defined.

Section claim_freeNode.
Context {A : Type} `{Item A}.
Implicit Types (σ : heap A) (t : treeid) (n : loc) (nd : node A).

(** C10.  [freeNode] on a node whose tag is not the context returns
    [ftNotOwned] and leaves the whole store (the node, the free list)
    as it was.  Consequently, when a handle [t] writes through [c] with
    its pool in order, a node tagged by another context is, after
    [Clear(true)] and after every deletion (or insertion), still what it
    was and is not in the pool. *)
Theorem freeNode_spares_shared_nodes σ (c : cowid) t f0 n nd :
  nodes σ !! n = Some nd →
  n_cow nd ≠ Some c →
  cow_freeNode (Some c) n σ = (Ok ftNotOwned, σ)
  ∧ (pool_ok c t f0 σ → foreign c nd →
     ∀ fuel,
       (let σ' := (Clear fuel t true σ).2 in
        nodes σ' !! n = Some nd ∧ ¬ in_pool σ' f0 n)
       ∧ ∀ o, let σ' := (run_op fuel t o σ).2 in
              nodes σ' !! n = Some nd ∧ ¬ in_pool σ' f0 n).
Proof.
  intros Hn Hc. split; [by apply (cow_freeNode_not_owned σ (Some c) n nd)|].
  intros Hp Hf fuel. split.
  - destruct (safe_Clear c t f0 [] fuel true σ Hp (Forall_nil_2 _)) as [He _].
    by eapply ext_foreign_kept.
  - intros o.
    destruct (safe_run_op c t f0 [] fuel o σ Hp (Forall_nil_2 _)) as [He _].
    by eapply ext_foreign_kept.
Qed.
End claim_freeNode.

(** A leaf tagged by context 0, seen from a handle that writes through
    context 1. *)
Lemma freeNode_spares_shared_nodes_witness :
  let nd : node Int := mkNode [1%Z] [] (Some 0) in
  let σ : heap Int :=
    mkHeap [nd] [mkFreeList [] 32]
      [mkCow (Some 0); mkCow (Some 0); mkCow (Some 0)]
      [mkBTree 2 1 (Some 0) 1] in
  cow_freeNode (Some 1) 0 σ = (Ok ftNotOwned, σ)
  ∧ ∀ fuel,
      (let σ' := (Clear fuel 0 true σ).2 in
       nodes σ' !! 0 = Some nd ∧ ¬ in_pool σ' 0 0)
      ∧ ∀ o, let σ' := (run_op fuel 0 o σ).2 in
             nodes σ' !! 0 = Some nd ∧ ¬ in_pool σ' 0 0.
Proof.
  intros nd σ.
  destruct (freeNode_spares_shared_nodes σ 1 0 0 0 nd) as [Hfree Hkept];
    [reflexivity|discriminate|].
  split; [exact Hfree|]. apply Hkept.
  - apply pool_okb_sound. reflexivity.
  - exists 0. split; [reflexivity|discriminate].
Defined.

(** * Further properties of the code *)

(** ** Slices *)

Section slice_facts.
Context {T : Type}.

(** X1.  [insertAt(index, x)] works for every index up to the length of
    the slice and panics beyond it; afterwards [x] is at [index], and
    [removeAt(index)] gives [x] back and restores the slice. *)
Theorem removeAt_undoes_insertAt (index : nat) (x : T) (s : list T) :
  (index ≤ length s →
   ∃ s', insertAt index x s = Some s'
         ∧ length s' = S (length s)
         ∧ s' !! index = Some x
         ∧ removeAt index s' = Some (x, s))
  ∧ (length s < index → insertAt index x s = None).
Proof.
  unfold insertAt. split; intros Hi.
  - rewrite decide_True by done. eexists. split; [done|].
    assert (length (take index s) = index) as Htake
      by (by apply length_take_le).
    assert ((take index s ++ x :: drop index s) !! index = Some x) as Hx.
    { rewrite lookup_app_r by lia. by rewrite Htake, Nat.sub_diag. }
    split_and!; [|done|].
    + rewrite length_app, length_cons, length_take, length_drop. lia.
    + unfold removeAt. rewrite Hx. do 2 f_equal.
      rewrite take_app_length' by done.
      rewrite drop_app_ge by lia. rewrite Htake.
      replace (S index - index) with 1 by lia. simpl. rewrite drop_0.
      apply take_drop.
  - by rewrite decide_False by lia.
Qed.
End slice_facts.

(** ** [find] on any slice *)

Section find_any.
Context {A : Type} `{Item A}.

(** X2.  On every slice, sorted or not, the index that [find] returns is
    within the slice's length, and when [find] reports the item as found,
    the element at that index exists and is equal to the item: neither is
    less than the other. *)
Theorem find_reports_an_equal_element (item : A) (l : list A) :
  (find item l).1 ≤ length l
  ∧ ((find item l).2 = true →
     ∃ y, l !! (find item l).1 = Some y
          ∧ Less y item = false ∧ Less item y = false).
Proof.
  split; [apply find_index_le|].
  unfold find, Search.
  destruct (Search_loop_behind (find_pred item l) (length l) 0 (length l))
    as [E|E]; [by left|by rewrite E|].
  destruct (Search_loop _ _ _ _) as [|m]; [done|].
  simpl in E. rewrite Nat.sub_0_r in E. unfold find_pred in E.
  destruct (l !! m) as [y|] eqn:Hy; [|done].
  destruct (Less y item) eqn:Hyx; [done|]. simpl. intros _. by exists y.
Qed.
End find_any.

(** ** Nodes from the pool *)

Section pool_facts.
Context {A : Type} `{Item A}.
Implicit Types (σ : heap A) (n l : loc) (nd : node A) (c : cowid) (f : flid).

Lemma bind_get_context {R'} c cw (k : copyOnWriteContext → M A R') σ :
  cows σ !! c = Some cw → bind (get_context c) k σ = k cw σ.
Proof. intros E. unfold bind, get_context. by rewrite E. Qed.

Lemma bind_context_freelist {R'} c f (k : flid → M A R') σ :
  cows σ !! c = Some (mkCow (Some f)) →
  bind (context_freelist c) k σ = k f σ.
Proof.
  intros E. unfold context_freelist.
  by rewrite bind_assoc, (bind_get_context _ _ _ _ E).
Qed.

Lemma with_node_twice σ n nd nd' :
  with_node (with_node σ n nd) n nd' = with_node σ n nd'.
Proof. unfold with_node. simpl. by rewrite list_insert_insert_eq. Qed.

Lemma list_snoc_cases {B} (l : list B) :
  l = [] ∨ ∃ rest x, l = rest ++ [x].
Proof. induction l using rev_ind; [by left|right; eauto]. Qed.

(** [newNode] takes the last node of the pool. *)
Lemma cow_newNode_recycled σ c f fl rest l ld :
  cows σ !! c = Some (mkCow (Some f)) →
  freelists σ !! f = Some fl →
  fl_freelist fl = rest ++ [l] →
  nodes σ !! l = Some ld →
  cow_newNode c σ =
    (Ok l,
     with_node (with_pool σ f (mkFreeList rest (fl_cap fl))) l
       (mkNode (n_items ld) (n_children ld) (Some c))).
Proof.
  intros Hc Hf Hfl Hl. unfold cow_newNode.
  rewrite (bind_context_freelist _ _ _ _ Hc).
  assert (FreeList_newNode f σ
          = (Ok l, with_pool σ f (mkFreeList rest (fl_cap fl)))) as Hnew.
  { rewrite FreeList_newNode_eq, Hf, Hfl, length_app. simpl.
    rewrite Nat.add_1_r. rewrite lookup_app_r by lia.
    rewrite Nat.sub_diag. simpl. by rewrite take_app_length. }
  rewrite (bind_ok _ _ _ _ _ Hnew).
  by erewrite bind_set_cow by (simpl; exact Hl).
Qed.

(** What [newNode] does, whether the pool is empty or not. *)
Lemma cow_newNode_spec σ c f fl :
  cows σ !! c = Some (mkCow (Some f)) →
  freelists σ !! f = Some fl →
  Forall (λ l, l < length (nodes σ)) (fl_freelist fl) →
  ∃ out ld σ',
    cow_newNode c σ = (Ok out, σ')
    ∧ nodes σ' !! out = Some (mkNode (n_items ld) (n_children ld) (Some c))
    ∧ (∀ l, l ≠ out → nodes σ' !! l = nodes σ !! l)
    ∧ length (nodes σ) ≤ length (nodes σ')
    ∧ cows σ' = cows σ ∧ trees σ' = trees σ
    ∧ (fl_freelist fl = [] ∧ out = length (nodes σ) ∧ ld = mkNode [] [] None
         ∧ freelists σ' = freelists σ
       ∨ ∃ rest, fl_freelist fl = rest ++ [out] ∧ nodes σ !! out = Some ld
                 ∧ freelists σ'
                   = <[f := mkFreeList rest (fl_cap fl)]> (freelists σ)).
Proof.
  intros Hc Hf Hall.
  destruct (list_snoc_cases (fl_freelist fl)) as [Hfl|(pool & l0 & Hfl)].
  - exists (length (nodes σ)), (mkNode [] [] None). eexists.
    split; [by eapply cow_newNode_fresh|]. simpl.
    split_and!; [by apply list_lookup_middle| |rewrite length_app; lia
                |done|done|by left].
    intros l Hl. destruct (decide (l < length (nodes σ))).
    + by rewrite lookup_app_l.
    + rewrite !lookup_ge_None_2; [done|lia|rewrite length_app; simpl; lia].
  - rewrite Hfl in Hall. apply Forall_app in Hall as [_ Hl0].
    apply Forall_cons in Hl0 as [Hl0 _].
    destruct (lookup_lt_is_Some_2 _ _ Hl0) as [ld Hld].
    exists l0, ld. eexists.
    split; [by eapply cow_newNode_recycled|]. simpl.
    split_and!; [by apply list_lookup_insert_eq| |by rewrite length_insert
                |done|done|right; by exists pool].
    intros l Hl. by apply list_lookup_insert_ne.
Qed.

(** [freeNode] on a node of the context. *)
Lemma cow_freeNode_owned σ c f fl n nd :
  nodes σ !! n = Some nd →
  n_cow nd = Some c →
  cows σ !! c = Some (mkCow (Some f)) →
  freelists σ !! f = Some fl →
  cow_freeNode (Some c) n σ =
    if decide (length (fl_freelist fl) < fl_cap fl)
    then (Ok ftStored,
          with_pool (with_node σ n (mkNode [] [] None)) f
            (mkFreeList (fl_freelist fl ++ [n]) (fl_cap fl)))
    else (Ok ftFreelistFull, with_node σ n (mkNode [] [] None)).
Proof.
  intros Hn Hcow Hc Hf. unfold cow_freeNode.
  pose proof (lookup_lt_Some _ _ _ Hn) as Hlt.
  mstep. rewrite decide_True by done.
  mstep. unfold truncate. rewrite ?decide_True by lia. simpl bounds.
  do 3 mstep. simpl. rewrite ?decide_True by lia. simpl bounds.
  do 2 mstep. rewrite with_node_twice. mstep. rewrite with_node_twice. simpl.
  unfold deref_context. mstep.
  erewrite bind_context_freelist by (simpl; exact Hc).
  unfold bind at 1. rewrite FreeList_freeNode_eq. simpl. rewrite Hf.
  by destruct (decide (length (fl_freelist fl) < fl_cap fl)).
Qed.

(** X3.  [freeNode] on a node of the context empties the node and takes
    its tag away; when the pool is below its capacity the node goes into
    the pool and the next [newNode] of the context hands out this very
    node, empty and tagged again, with the pool as it was before; when the
    pool is full the node stays out of it. *)
Theorem freeNode_then_newNode σ c f fl n nd :
  nodes σ !! n = Some nd →
  n_cow nd = Some c →
  cows σ !! c = Some (mkCow (Some f)) →
  freelists σ !! f = Some fl →
  if decide (length (fl_freelist fl) < fl_cap fl) then
    ∃ σ1,
      cow_freeNode (Some c) n σ = (Ok ftStored, σ1)
      ∧ nodes σ1 !! n = Some (mkNode [] [] None)
      ∧ freelists σ1 !! f
        = Some (mkFreeList (fl_freelist fl ++ [n]) (fl_cap fl))
      ∧ cow_newNode c σ1 = (Ok n, with_node σ n (mkNode [] [] (Some c)))
  else
    cow_freeNode (Some c) n σ
    = (Ok ftFreelistFull, with_node σ n (mkNode [] [] None)).
Proof.
  intros Hn Hcow Hc Hf.
  rewrite (cow_freeNode_owned σ c f fl n nd Hn Hcow Hc Hf).
  pose proof (lookup_lt_Some _ _ _ Hn) as Hlt.
  pose proof (lookup_lt_Some _ _ _ Hf) as Hflt.
  destruct (decide (length (fl_freelist fl) < fl_cap fl)); [|done].
  eexists. split; [done|]. simpl.
  split_and!; [by apply list_lookup_insert_eq
              |by apply list_lookup_insert_eq|].
  erewrite cow_newNode_recycled;
    [|simpl; exact Hc|simpl; by apply list_lookup_insert_eq|done
     |simpl; by apply list_lookup_insert_eq].
  f_equal. unfold with_node, with_pool. simpl.
  rewrite !list_insert_insert_eq. f_equal.
  apply list_insert_id. by destruct fl.
Qed.
End pool_facts.

Lemma freeNode_then_newNode_witness :
  let σ := four_items in
  ∃ σ1,
    cow_freeNode (Some 0) 1 σ = (Ok ftStored, σ1)
    ∧ nodes σ1 !! 1 = Some (mkNode [] [] None)
    ∧ freelists σ1 !! 0 = Some (mkFreeList [1] 32)
    ∧ cow_newNode 0 σ1 = (Ok 1, with_node σ 1 (mkNode [] [] (Some 0))).
Proof.
  exact (freeNode_then_newNode four_items 0 0 (mkFreeList [] 32) 1
           (mkNode [4%Z] [] (Some 0)) eq_refl eq_refl eq_refl eq_refl).
Defined.

(** ** Copying and splitting a node *)

Section node_facts.
Context {A : Type} `{Item A}.
Implicit Types (σ : heap A) (n l : loc) (nd : node A) (c : cowid) (f : flid).

Lemma pool_apart_allocated σ f n fl :
  pool_apart σ f n → freelists σ !! f = Some fl →
  Forall (λ l, l < length (nodes σ)) (fl_freelist fl).
Proof.
  intros Hp Hf. eapply Forall_impl; [by apply Hp|]. by intros l [_ ?].
Qed.

(** [newNode] does not hand out [n] when [n] is allocated and not in the
    pool. *)
Lemma cow_newNode_other σ c f fl n nd :
  cows σ !! c = Some (mkCow (Some f)) →
  freelists σ !! f = Some fl →
  pool_apart σ f n →
  nodes σ !! n = Some nd →
  ∃ out ld σ',
    cow_newNode c σ = (Ok out, σ')
    ∧ out ≠ n
    ∧ nodes σ' !! out = Some (mkNode (n_items ld) (n_children ld) (Some c))
    ∧ (∀ l, l ≠ out → nodes σ' !! l = nodes σ !! l)
    ∧ cows σ' = cows σ ∧ trees σ' = trees σ
    ∧ (ld = mkNode [] [] None ∨ nodes σ !! out = Some ld ∧ out ∈ fl_freelist fl).
Proof.
  intros Hc Hf Hp Hn.
  destruct (cow_newNode_spec σ c f fl Hc Hf (pool_apart_allocated _ _ _ _ Hp Hf))
    as (out & ld & σ' & Hrun & Hout & Hrest & _ & Hcows & Htrees & Hcase).
  exists out, ld, σ'. split_and!; try done.
  - destruct Hcase as [(_ & -> & _)|(rest & Hfl & _)].
    + apply lookup_lt_Some in Hn. lia.
    + specialize (Hp fl Hf). rewrite Hfl in Hp.
      apply Forall_app in Hp as [_ Hp]. apply Forall_cons in Hp as [[Hp _] _].
      done.
  - destruct Hcase as [(_ & _ & -> & _)|(rest & Hfl & Hld & _)]; [by left|].
    right. split; [done|]. rewrite Hfl. set_solver.
Qed.

(** X4.  [mutableFor(cow)] on a node of the context [cow] returns the node
    itself and changes nothing.  On a node of another context it returns
    another node, fresh or taken from the pool, that holds the same items
    and children and carries the tag of [cow]; the node it was called on
    and every other node stay as they were. *)
Theorem mutableFor_copies_foreign_nodes σ c f fl n nd :
  nodes σ !! n = Some nd →
  cows σ !! c = Some (mkCow (Some f)) →
  freelists σ !! f = Some fl →
  pool_apart σ f n →
  (n_cow nd = Some c → mutableFor n (Some c) σ = (Ok n, σ))
  ∧ (n_cow nd ≠ Some c →
     ∃ out σ',
       mutableFor n (Some c) σ = (Ok out, σ')
       ∧ out ≠ n
       ∧ nodes σ' !! out
         = Some (mkNode (n_items nd) (n_children nd) (Some c))
       ∧ (∀ l, l ≠ out → nodes σ' !! l = nodes σ !! l)
       ∧ cows σ' = cows σ ∧ trees σ' = trees σ).
Proof.
  intros Hn Hc Hf Hp. split; [by apply mutableFor_owned|]. intros Hcow.
  destruct (cow_newNode_other σ c f fl n nd Hc Hf Hp Hn)
    as (out & ld & σ1 & Hrun & Hne & Hout & Hrest & Hcows & Htrees & _).
  assert (nodes σ1 !! n = Some nd) as Hn1 by (by rewrite Hrest).
  exists out. eexists. split.
  - unfold mutableFor. rewrite (bind_get_cow _ _ _ _ Hn).
    rewrite decide_False by done. unfold deref_context. rewrite bind_ret.
    rewrite (bind_ok _ _ _ _ _ Hrun).
    rewrite (bind_get_items _ _ _ _ Hn1).
    rewrite (bind_set_items _ _ _ _ _ Hout).
    erewrite bind_get_children
      by (rewrite with_node_lookup_ne by done; exact Hn1).
    erewrite bind_set_children
      by (apply with_node_lookup; by eapply lookup_lt_Some).
    rewrite with_node_twice. reflexivity.
  - simpl. split_and!; [done| | |done|done].
    + apply list_lookup_insert_eq. by eapply lookup_lt_Some.
    + intros l Hl. rewrite list_lookup_insert_ne by done. by apply Hrest.
Qed.

(** X5.  [split(i)] of a node with an item at [i] returns that item and a
    second node of the same context; the node keeps the items before [i]
    and the children up to [i], the second node gets the items after [i]
    and the children from [i+1] on, so that the items of the two nodes
    around the returned item are the items the node held.  No other node
    changes.  (The pool holds empty nodes, as [freeNode] leaves them.) *)
Theorem split_divides_node σ c f fl n nd (i : nat) (item : A) :
  nodes σ !! n = Some nd →
  n_cow nd = Some c →
  cows σ !! c = Some (mkCow (Some f)) →
  freelists σ !! f = Some fl →
  pool_apart σ f n →
  pool_blank σ f →
  n_items nd !! i = Some item →
  (n_children nd = [] ∨ i < length (n_children nd)) →
  ∃ next σ',
    split n (Z.of_nat i) σ = (Ok (item, next), σ')
    ∧ next ≠ n
    ∧ nodes σ' !! n
      = Some (mkNode (take i (n_items nd)) (take (i + 1) (n_children nd))
                (Some c))
    ∧ nodes σ' !! next
      = Some (mkNode (drop (i + 1) (n_items nd))
                (drop (i + 1) (n_children nd)) (Some c))
    ∧ take i (n_items nd) ++ item :: drop (i + 1) (n_items nd) = n_items nd
    ∧ (∀ l, l ≠ n → l ≠ next → nodes σ' !! l = nodes σ !! l)
    ∧ cows σ' = cows σ ∧ trees σ' = trees σ.
Proof.
  intros Hn Hcow Hc Hf Hp Hblank Hi Hcs.
  destruct (cow_newNode_other σ c f fl n nd Hc Hf Hp Hn)
    as (next & ld & σ1 & Hrun & Hne & Hnext & Hrest & Hcows & Htrees & Hld).
  assert (n_items ld = [] ∧ n_children ld = []) as [Hld1 Hld2].
  { destruct Hld as [->|[Hld Hin]]; [done|]. by eapply Hblank. }
  rewrite Hld1, Hld2 in Hnext.
  assert (nodes σ1 !! n = Some nd) as Hn1 by (by rewrite Hrest).
  pose proof (lookup_lt_Some _ _ _ Hi) as Hilt.
  pose proof (lookup_lt_Some _ _ _ Hn1) as Hnlt.
  pose proof (lookup_lt_Some _ _ _ Hnext) as Hnextlt.
  exists next.
  set (nd1 := mkNode (drop (i + 1) (n_items nd)) [] (Some c)).
  set (nd2 := mkNode (take i (n_items nd)) (n_children nd) (n_cow nd)).
  assert (∀ σ2 nda ndb,
    nodes σ2 = <[n := nda]> (<[next := ndb]> (nodes σ1)) →
    nodes σ2 !! n = Some nda ∧ nodes σ2 !! next = Some ndb
    ∧ ∀ l, l ≠ n → l ≠ next → nodes σ2 !! l = nodes σ !! l) as Hlook.
  { intros σ2 nda ndb ->. split_and!.
    - apply list_lookup_insert_eq. by rewrite length_insert.
    - rewrite list_lookup_insert_ne by done. by apply list_lookup_insert_eq.
    - intros l ? ?. rewrite !list_lookup_insert_ne by done. by apply Hrest. }
  assert (∃ σ',
    split n (Z.of_nat i) σ = (Ok (item, next), σ')
    ∧ nodes σ' =
        <[n := mkNode (take i (n_items nd)) (take (i + 1) (n_children nd))
                 (Some c)]>
          (<[next := mkNode (drop (i + 1) (n_items nd))
                       (drop (i + 1) (n_children nd)) (Some c)]> (nodes σ1))
    ∧ cows σ' = cows σ ∧ trees σ' = trees σ) as (σ' & Hsplit & Hnodes & ? & ?).
  { unfold split. mstep.
    unfold index_of. rewrite decide_True by lia. rewrite Nat2Z.id.
    simpl bounds. mstep. rewrite Hi. simpl bounds. do 2 mstep. rewrite Hcow.
    unfold deref_context. mstep. rewrite (bind_ok _ _ _ _ _ Hrun).
    do 2 mstep. cbn [n_items]. rewrite decide_True by lia. do 2 mstep.
    cbn [n_children n_cow app]. fold nd1.
    assert (nodes (with_node σ1 next nd1) !! n = Some nd) as Hn2
      by (by rewrite with_node_lookup_ne).
    mstep. unfold truncate. rewrite decide_True by lia. simpl bounds.
    do 2 mstep. fold nd2.
    set (σ3 := with_node (with_node σ1 next nd1) n nd2).
    assert (nodes σ3 !! n = Some nd2) as Hn3.
    { apply with_node_lookup. simpl. by rewrite length_insert. }
    assert (nodes σ3 !! next = Some nd1) as Hnext3.
    { unfold σ3. rewrite with_node_lookup_ne by done.
      by apply with_node_lookup. }
    mstep. cbn [n_children nd2].
    destruct (decide (0 < length (n_children nd))) as [Hpos|Hleaf].
    - destruct Hcs as [Hnil|Hlt]; [rewrite Hnil in Hpos; simpl in Hpos; lia|].
      mstep. cbn [n_children nd1]. rewrite decide_True by lia.
      do 2 mstep. cbn [n_items n_cow nd1 app].
      set (nd1' := mkNode _ _ _).
      assert (nodes (with_node σ3 next nd1') !! n = Some nd2) as Hn4
        by (by rewrite with_node_lookup_ne).
      mstep. cbn [n_children nd2]. rewrite decide_True by lia. simpl bounds.
      do 2 mstep. eexists. split; [reflexivity|].
      simpl. rewrite Hcow. split_and!; [|done|done].
      rewrite (list_insert_insert_ne _ next n) by done.
      by rewrite !list_insert_insert_eq.
    - assert (n_children nd = []) as Hnil.
      { destruct (n_children nd); [done|simpl in Hleaf; lia]. }
      mstep. eexists. split; [reflexivity|].
      unfold σ3, nd1, nd2. simpl. rewrite Hcow, Hnil. simpl.
      split_and!; [|done|done].
      by rewrite take_nil, drop_nil. }
  exists σ'. destruct (Hlook σ' _ _ Hnodes) as (? & ? & ?).
  split_and!; try done.
  rewrite <- (take_drop_middle _ _ _ Hi) at 3.
  by rewrite Nat.add_1_r.
Qed.
End node_facts.

(** A leaf of context 0, made writable for context 1. *)
Lemma mutableFor_copies_foreign_nodes_witness :
  let nd : node Int := mkNode [1%Z] [] (Some 0) in
  let σ : heap Int :=
    mkHeap [nd] [mkFreeList [] 32] [mkCow (Some 0); mkCow (Some 0)]
      [mkBTree 2 1 (Some 0) 1] in
  ∃ out σ',
    mutableFor 0 (Some 1) σ = (Ok out, σ')
    ∧ out ≠ 0
    ∧ nodes σ' !! out = Some (mkNode [1%Z] [] (Some 1))
    ∧ nodes σ' !! 0 = Some nd.
Proof.
  intros nd σ.
  assert (pool_apart σ 0 0) as Hp.
  { intros fl [= <-]. constructor. }
  destruct (mutableFor_copies_foreign_nodes σ 1 0 (mkFreeList [] 32) 0 nd
              eq_refl eq_refl eq_refl Hp) as [_ Hcopy].
  destruct Hcopy as (out & σ' & Hrun & Hne & Hout & Hrest & _);
    [discriminate|].
  exists out, σ'. split_and!; [done..|]. by rewrite Hrest.
Defined.

(** The leaf [1; 2; 3] split at index 1. *)
Lemma split_divides_node_witness :
  let nd : node Int := mkNode [1%Z; 2%Z; 3%Z] [] (Some 0) in
  let σ : heap Int :=
    mkHeap [nd] [mkFreeList [] 32] [mkCow (Some 0)] [mkBTree 2 3 (Some 0) 0] in
  ∃ next σ',
    split 0 1 σ = (Ok (2%Z, next), σ')
    ∧ next ≠ 0
    ∧ nodes σ' !! 0 = Some (mkNode [1%Z] [] (Some 0))
    ∧ nodes σ' !! next = Some (mkNode [3%Z] [] (Some 0)).
Proof.
  intros nd σ.
  assert (pool_apart σ 0 0) as Hp.
  { intros fl [= <-]. constructor. }
  assert (pool_blank σ 0) as Hb.
  { intros fl l ld [= <-] Hin. by apply not_elem_of_nil in Hin. }
  destruct (split_divides_node σ 0 0 (mkFreeList [] 32) 0 nd 1 2%Z
              eq_refl eq_refl eq_refl eq_refl Hp Hb eq_refl (or_introl eq_refl))
    as (next & σ' & Hrun & Hne & Hn & Hnext & _).
  by exists next, σ'.
Defined.
